(** * golo / kodos: package discovery and dependency resolution

    A shallow embedding of [cmd/golo/golo.go] and [cmd/kodos/kodos.go].
    The two commands share [loadSources], [loadDependencies], [register],
    [importPath] and [cacheDir] verbatim; they differ in their progress
    output and in the name of the tool directory that holds the cache
    ([.golo] and [.kang]).

    Modelling choices:
    - a Go [error] is the string [err.Error()];
    - [fatal] and [check] end the process with [os.Exit(1)]: a computation
      is a [Run], either [Done] with a value or [Exited] with what was
      written to standard error;
    - the standard output (the progress reports) is not modelled;
    - the operating system and the Go libraries ([os.Stat],
      [build.ImportDir], [filepath.Join], [path.Join], [sha1.Sum],
      [runtime.GOROOT]) are parameters of the development;
    - the project tree the scanner walks is a [DirTree], which makes the
      recursion of [loadSources] structural; the directories the
      resolver probes are looked up by path, and its recursion, which
      follows the imports, takes fuel;
    - [seen] is the Go [map[string]bool], a [gmap string bool] read with
      the zero value [false] for a missing key. *)

From Stdlib Require Import String Ascii List NArith.
From Stdlib.Strings Require Import Byte.
From stdpp Require Import base option gmap strings list.

Open Scope string_scope.
Open Scope list_scope.

(** ** Process outcomes *)

Inductive Run (A : Type) : Type :=
| Done (a : A)
| Exited (stderr : string).
Arguments Done {A} a.
Arguments Exited {A} stderr.

(** The line-feed character, and [fmt.Sprintln] on strings: the operands
    separated by spaces, followed by a newline. *)
Definition LF : string := String (ascii_of_nat 10) EmptyString.

Definition Sprintln (args : list string) : string :=
  String.concat " " args +:+ LF.

(** [fatal(arg, args...)]: [fmt.Fprint(os.Stderr, "fatal: ", arg)], then
    [fmt.Fprintln(os.Stderr, args...)], then [os.Exit(1)].  [Fprint] puts
    no space between operands when one of them is a string. *)
Definition fatal {A : Type} (arg : string) (args : list string) : Run A :=
  Exited ("fatal: " +:+ arg +:+ Sprintln args).

(** [check(err)]: nothing when [err] is nil, [fatal(err)] otherwise. *)
Definition check (err : option string) : Run unit :=
  match err with
  | None => Done tt
  | Some e => fatal e []
  end.

(** ** Package descriptors *)

(** The fields of [build.Package] the program reads or writes:
    [ImportPath] is the module identifier. *)
Record Package : Type := MkPackage {
  ImportPath : string;
  Dir : string;
  Name : string;
  Imports : list string
}.

(** [pkg.ImportPath = path] *)
Definition setImportPath (pkg : Package) (path : string) : Package :=
  {| ImportPath := path; Dir := Dir pkg; Name := Name pkg;
     Imports := Imports pkg |}.

(** What [build.ImportDir(dir, 0)] answers: a package, the
    [*build.NoGoError] of a directory without buildable Go source, or
    another error. *)
Inductive ImportResult : Type :=
| Imported (pkg : Package)
| NoGoError (err : string)
| ImportError (err : string).

(** What [os.Stat] answers, reduced to the error: [StatErr notExist e]
    is an error [e] for which [os.IsNotExist] is [notExist]. *)
Inductive StatResult : Type :=
| StatOk
| StatErr (notExist : bool) (err : string).

(** ** The source tree

    What the scanner observes of a directory: the answer of [os.Open]
    followed by [Readdir(-1)] (an error, or the entries in directory
    order, each with its name and, when [IsDir()], the directory below),
    and the answer of [build.ImportDir] on it, as a function of the path
    the directory is imported under.  Opening [filepath.Join(dir, name)]
    for an entry [name] of [dir] opens that entry. *)
Set Warnings "-register-all".
Inductive DirTree : Type :=
| MkDir (listing : string + list (string * option DirTree))
        (source : string -> ImportResult).

Definition FileInfo : Type := (string * option DirTree)%type.

(** The test of line 133 of golo.go (130 of kodos.go). *)
Definition ignored (name : string) : bool :=
  String.prefix "_" name || String.prefix "." name
  || String.eqb name "testdata" || String.eqb name "vendor".

(** ** The environment

    The Go libraries and the operating system the program calls, and the
    one constant in which the two commands differ. *)
Class Env : Type := MkEnv {
  (** [filepath.Join] and [path.Join] *)
  filepath_Join : list string -> string;
  path_Join : list string -> string;
  (** [sha1.Sum] on the bytes of a string *)
  sha1_Sum : string -> list byte;
  (** [runtime.GOROOT()] *)
  GOROOT : string;
  (** [os.Stat] and [build.ImportDir(dir, 0)] *)
  os_Stat : string -> StatResult;
  build_ImportDir : string -> ImportResult;
  (** the tool directory: [".golo"] in golo.go, [".kang"] in kodos.go *)
  tool_dir : string
}.

Section Command.

Context {E : Env}.

(** *** Source Tree Scanner *)

(** The [for _, fi := range files] loop of [loadSources], with the
    recursive call as [visit]. *)
Definition rangeFiles (visit : string -> DirTree -> Run (list Package))
  : list FileInfo -> list Package -> Run (list Package) :=
  fix range (files : list FileInfo) (srcs : list Package) :=
    match files with
    | [] => Done srcs
    | (name, fi) :: files =>
        if ignored name then (* ignore it *) range files srcs
        else
          match fi with
          | Some sub =>
              match visit name sub with
              | Done more => range files (srcs ++ more)
              | Exited msg => Exited msg
              end
          | None => range files srcs
          end
    end.

Fixpoint loadSources (prefix dir : string) (t : DirTree) {struct t}
  : Run (list Package) :=
  match t with
  | MkDir (inl err) _ => fatal err []
  | MkDir (inr files) source =>
      match rangeFiles
              (fun name sub =>
                 loadSources (path_Join [prefix; name])
                             (filepath_Join [dir; name]) sub)
              files [] with
      | Exited msg => Exited msg
      | Done srcs =>
          match source dir with
          | Imported pkg =>
              (* ImportDir does not know the import path for this
                 package but we know the prefix, so fix it. *)
              Done (srcs ++ [setImportPath pkg prefix])
          | NoGoError _ => (* do nothing *) Done srcs
          | ImportError err => fatal err []
          end
      end
  end.

(** The recursive call [loadSources prefix dir] makes on the entry
    [name]. *)
Definition visit (prefix dir : string)
  : string -> DirTree -> Run (list Package) :=
  fun name sub =>
    loadSources (path_Join [prefix; name]) (filepath_Join [dir; name]) sub.

(** *** Dependency Resolver *)

(** The calls the resolver makes: an entry into [load] with the requested
    module identifier, and the two file system calls with the
    directory they are made on. *)
Inductive Event : Type :=
| EvLoad (path : string)
| EvStat (dir : string)
| EvImportDir (dir : string).

(** A computation that calls the file system: the calls made, in order,
    and the outcome. *)
Definition IO (A : Type) : Type := (list Event * Run A)%type.

Definition IO_ret {A : Type} (a : A) : IO A := ([], Done a).

Definition IO_bind {A B : Type} (m : IO A) (f : A -> IO B) : IO B :=
  match m with
  | (t, Done a) => let '(t', r) := f a in (t ++ t', r)
  | (t, Exited msg) => (t, Exited msg)
  end.

Local Notation "x <- m ;; k" := (IO_bind m (fun x => k))
  (at level 100, m at next level, right associativity).

Definition lift {A : Type} (r : Run A) : IO A := ([], r).

Definition Stat (dir : string) : IO StatResult :=
  ([EvStat dir], Done (os_Stat dir)).

Definition ImportDir (dir : string) : IO ImportResult :=
  ([EvImportDir dir], Done (build_ImportDir dir)).

Definition importPath (path dir : string) : IO Package :=
  r <- ImportDir dir ;;
  match r with
  | Imported pkg =>
      (* ImportDir does not know the import path for this package
         but we know the prefix, so fix it. *)
      IO_ret (setImportPath pkg path)
  | NoGoError err | ImportError err => lift (fatal err [])
  end.

(** The closure [load] of [loadDependencies]. *)
Definition load (rootdir path : string) : IO Package :=
  _ <- ([EvLoad path], Done tt) ;;
  let dir := filepath_Join [GOROOT; "src"; path] in
  st <- Stat dir ;;
  match st with
  | StatOk => importPath path dir
  | StatErr _ _ =>
      let dir := filepath_Join [rootdir; "vendor"; path] in
      st <- Stat dir ;;
      match st with
      | StatOk => importPath path dir
      | StatErr _ err => lift (fatal "cannot resolve path" [path; err])
      end
  end.

(** The variables the closure [walk] captures: [seen] and [srcs], and
    with them the calls made so far. *)
Record Resolver : Type := MkResolver {
  seen : gmap string bool;
  srcs : list Package;
  trace : list Event
}.

(** [seen[path]] *)
Definition is_seen (m : gmap string bool) (path : string) : bool :=
  default false (m !! path).

(** A [for ... range] loop whose body may exit the process or, for a
    body that recurses, run out of fuel. *)
Fixpoint for_each {X S : Type} (body : X -> S -> option (Run S))
    (l : list X) (s : S) : option (Run S) :=
  match l with
  | [] => Some (Done s)
  | x :: l =>
      match body x s with
      | Some (Done s') => for_each body l s'
      | Some (Exited msg) => Some (Exited msg)
      | None => None
      end
  end.

(** The closure [walk] of [loadDependencies]; [None] is a recursion
    deeper than [fuel]. *)
Fixpoint walk (fuel : nat) (rootdir path : string) (st : Resolver)
  : option (Run Resolver) :=
  match fuel with
  | O => None
  | S fuel =>
      if is_seen (seen st) path then Some (Done st)
      else
        let seen' := <[path := true]> (seen st) in
        match load rootdir path with
        | (t, Exited msg) => Some (Exited msg)
        | (t, Done pkg) =>
            for_each (walk fuel rootdir) (Imports pkg)
              (MkResolver seen' (srcs st ++ [pkg]) (trace st ++ t))
        end
  end.

(** The captured variables after the first loop of [loadDependencies]:
    [seen] holds the [ImportPath] of each of the packages passed in. *)
Definition initial (srcs0 : list Package) : Resolver :=
  MkResolver
    (fold_left (fun m src => <[ImportPath src := true]> m) srcs0 ∅)
    srcs0 [].

(** [loadDependencies] up to its [return]: the captured variables when
    the loop over [srcs[:]] is over. *)
Definition resolve (fuel : nat) (rootdir : string) (srcs0 : list Package)
  : option (Run Resolver) :=
  for_each (fun src => for_each (walk fuel rootdir) (Imports src))
    srcs0 (initial srcs0).

Definition loadDependencies (fuel : nat) (rootdir : string)
    (srcs0 : list Package) : option (Run (list Package)) :=
  match resolve fuel rootdir srcs0 with
  | Some (Done st) => Some (Done (srcs st))
  | Some (Exited msg) => Some (Exited msg)
  | None => None
  end.

(** *** Cache Path Deriver *)

(** [fmt.Sprintf("%x", b)] on a byte slice: two lower-case hexadecimal
    digits a byte. *)
Definition hex_digit (n : N) : ascii :=
  match n with
  | 0 => "0" | 1 => "1" | 2 => "2" | 3 => "3" | 4 => "4" | 5 => "5"
  | 6 => "6" | 7 => "7" | 8 => "8" | 9 => "9" | 10 => "a" | 11 => "b"
  | 12 => "c" | 13 => "d" | 14 => "e" | _ => "f"
  end%N%char.

Fixpoint hex (b : list byte) : string :=
  match b with
  | [] => ""
  | x :: b =>
      String (hex_digit (Byte.to_N x / 16))
        (String (hex_digit (Byte.to_N x mod 16)) (hex b))
  end.

Definition cacheDir (rootdir key : string) : string :=
  let hash := sha1_Sum key in
  filepath_Join [rootdir; tool_dir; "cache";
                 hex (firstn 1 hash); hex (skipn 1 hash)].

(** *** Resolution Override Layer *)

Definition register (rootdir prefix kind arg : string)
    (next : string -> IO Package) : string -> IO Package :=
  let dir := cacheDir rootdir (prefix +:+ kind +:+ "=" +:+ arg) in
  fun path =>
    if negb (String.prefix prefix path) then next path
    else
      let dir := filepath_Join [dir; path] in
      st <- Stat dir ;;
      _ <- lift (match st with
                 | StatErr true err => check (Some err)
                 | _ => Done tt
                 end) ;;
      importPath path dir.

(** *** Notions the properties are stated with *)

(** The module identifiers [load] was entered with, and the directories
    [os.Stat] was called on, in call order. *)
Fixpoint loads (t : list Event) : list string :=
  match t with
  | [] => []
  | EvLoad path :: t => path :: loads t
  | _ :: t => loads t
  end.

Fixpoint probes (t : list Event) : list string :=
  match t with
  | [] => []
  | EvStat dir :: t => dir :: probes t
  | _ :: t => probes t
  end.

(** The identifier and the directory [loadSources] reaches from
    [prefix] and [dir] through the entries [names], outermost first. *)
Definition moduleID (prefix : string) (names : list string) : string :=
  fold_left (fun p name => path_Join [p; name]) names prefix.

Definition directory (dir : string) (names : list string) : string :=
  fold_left (fun d name => filepath_Join [d; name]) names dir.

(** The members of [U] not yet in [seen]. *)
Definition unseen (U : list string) (m : gmap string bool) : list string :=
  List.filter (fun p => negb (is_seen m p)) U.

(** [U] holds every import of each of its members that [load] loads. *)
Definition import_closed (rootdir : string) (U : list string) : Prop :=
  Forall (fun p =>
            match snd (load rootdir p) with
            | Done pkg => Forall (fun i => i ∈ U) (Imports pkg)
            | Exited _ => True
            end) U.

(** [extends rootdir st st' added]: from [st] to [st'] the resolver
    appended the descriptors [added], each of them what [load] returns
    for its identifier; it loaded their identifiers, in that order, and
    nothing else, no identifier twice and none that [st] had seen; it
    marked them seen, and saw every import of each of them. *)
Definition extends (rootdir : string) (st st' : Resolver)
    (added : list Package) : Prop :=
  srcs st' = srcs st ++ added /\
  loads (trace st') = loads (trace st) ++ map ImportPath added /\
  NoDup (map ImportPath added) /\
  (forall q, is_seen (seen st') q = true <->
             is_seen (seen st) q = true \/ q ∈ map ImportPath added) /\
  (forall q, q ∈ map ImportPath added -> is_seen (seen st) q = false) /\
  (forall p i, p ∈ added -> i ∈ Imports p -> is_seen (seen st') i = true) /\
  (forall p, p ∈ added -> snd (load rootdir (ImportPath p)) = Done p).

End Command.

(** What [importPath path] makes of the answer of [build.ImportDir]:
    the package under the identifier [path], or the exit of [check]. *)
Definition imported (path : string) (r : ImportResult) : Run Package :=
  match r with
  | Imported pkg => Done (setImportPath pkg path)
  | NoGoError err | ImportError err => Exited ("fatal: " +:+ err +:+ LF)
  end.

(** [visible t names t']: [t'] is the directory below [t] along the
    entries [names], none of which the scanner ignores. *)
Inductive visible : DirTree -> list string -> DirTree -> Prop :=
| visible_here t : visible t [] t
| visible_step files source name sub names t' :
    (name, Some sub) ∈ files ->
    ignored name = false ->
    visible sub names t' ->
    visible (MkDir (inr files) source) (name :: names) t'.

(** The tree without its ignored entries, at every level. *)
Fixpoint prune (t : DirTree) : DirTree :=
  match t with
  | MkDir (inl err) source => MkDir (inl err) source
  | MkDir (inr files) source =>
      MkDir
        (inr ((fix entries (files : list FileInfo) : list FileInfo :=
                 match files with
                 | [] => []
                 | (name, fi) :: files =>
                     if ignored name then entries files
                     else
                       (name, match fi with
                              | Some sub => Some (prune sub)
                              | None => None
                              end) :: entries files
                 end) files))
        source
  end.

(** [build.ImportDir(dir, 0)] on the directory [t]. *)
Definition source_of (t : DirTree) (dir : string) : ImportResult :=
  match t with MkDir _ source => source dir end.

(** A directory, scanned as [dir], that the scan cannot list or whose
    source does not load for another reason than the absence of Go
    source. *)
Definition fails (dir : string) (t : DirTree) : Prop :=
  match t with
  | MkDir (inl _) _ => True
  | MkDir (inr _) source =>
      match source dir with
      | ImportError _ => True
      | _ => False
      end
  end.

(** ** Library models for the examples

    An environment to run the program in: Go's [path.Join] on
    slash-separated paths, SHA-1, and a file system given as a table of
    directories. *)

Module GoPath.

(** The elements between the slashes. *)
Fixpoint elements (s : string) : list string :=
  match s with
  | EmptyString => [""]
  | String c s' =>
      if Ascii.eqb c "/" then "" :: elements s'
      else match elements s' with
           | h :: t => String c h :: t
           | [] => [String c ""]
           end
  end.

Definition rooted (s : string) : bool := String.prefix "/" s.

(** One element of [Clean]: empty and [.] elements go, [..] removes the
    element before it, stays in front of a relative path and goes in
    front of a rooted one. *)
Definition step (root : bool) (stack : list string) (e : string)
  : list string :=
  if String.eqb e "" || String.eqb e "." then stack
  else if String.eqb e ".." then
    match stack with
    | top :: below => if String.eqb top ".." then e :: stack else below
    | [] => if root then stack else [e]
    end
  else e :: stack.

Definition Clean (path : string) : string :=
  let out :=
    String.concat "/"
      (rev (fold_left (step (rooted path)) (elements path) [])) in
  if rooted path then "/" +:+ out
  else if String.eqb out "" then "." else out.

(** [Join]: the elements from the first non-empty one on, joined with
    slashes and cleaned. *)
Fixpoint Join (elem : list string) : string :=
  match elem with
  | [] => ""
  | e :: rest =>
      if String.eqb e "" then Join rest
      else Clean (String.concat "/" elem)
  end.

End GoPath.

Module SHA1.

Definition w32 (x : N) : N := (x mod 2 ^ 32)%N.

Definition rotl (n x : N) : N :=
  w32 (N.lor (N.shiftl x n) (N.shiftr x (32 - n))).

Definition add32 (x y : N) : N := w32 (x + y).

(** The [n] low bytes of [x], most significant first. *)
Definition be_bytes (n : nat) (x : N) : list N :=
  map (fun i => (N.shiftr x (8 * N.of_nat i) mod 256)%N) (rev (seq 0 n)).

Definition pad (msg : list N) : list N :=
  let len := length msg in
  let zeros := ((64 - (len + 9) mod 64) mod 64)%nat in
  msg ++ [128%N] ++ repeat 0%N zeros ++ be_bytes 8 (8 * N.of_nat len).

Definition be_word (bs : list N) : N :=
  fold_left (fun acc b => (acc * 256 + b)%N) bs 0%N.

Fixpoint words (n : nat) (bs : list N) : list N :=
  match n with
  | O => []
  | S n => be_word (firstn 4 bs) :: words n (skipn 4 bs)
  end.

Fixpoint blocks (n : nat) (bs : list N) : list (list N) :=
  match n with
  | O => []
  | S n => words 16 (firstn 64 bs) :: blocks n (skipn 64 bs)
  end.

(** The message schedule, latest word first while it is extended. *)
Fixpoint extend (n : nat) (w : list N) : list N :=
  match n with
  | O => w
  | S n =>
      let x := N.lxor (N.lxor (nth 2 w 0%N) (nth 7 w 0%N))
                      (N.lxor (nth 13 w 0%N) (nth 15 w 0%N)) in
      extend n (rotl 1 x :: w)
  end.

Definition schedule (block : list N) : list N :=
  rev (extend 64 (rev block)).

Definition Chaining : Type := (N * N * N * N * N)%type.

Definition round (i : nat) (s : Chaining) (w : N) : Chaining :=
  let '(a, b, c, d, e) := s in
  let not32 x := N.lxor x (2 ^ 32 - 1) in
  let '(f, k) :=
    if Nat.ltb i 20 then
      (N.lor (N.land b c) (N.land (not32 b) d), 1518500249%N)
    else if Nat.ltb i 40 then (N.lxor (N.lxor b c) d, 1859775393%N)
    else if Nat.ltb i 60 then
      (N.lor (N.lor (N.land b c) (N.land b d)) (N.land c d), 2400959708%N)
    else (N.lxor (N.lxor b c) d, 3395469782%N) in
  let temp := add32 (add32 (add32 (add32 (rotl 5 a) f) e) k) w in
  (temp, a, rotl 30 b, c, d).

Fixpoint rounds (i : nat) (ws : list N) (s : Chaining) : Chaining :=
  match ws with
  | [] => s
  | w :: ws => rounds (S i) ws (round i s w)
  end.

Definition compress (h : Chaining) (block : list N) : Chaining :=
  let '(h0, h1, h2, h3, h4) := h in
  let '(a, b, c, d, e) := rounds 0 (schedule block) h in
  (add32 h0 a, add32 h1 b, add32 h2 c, add32 h3 d, add32 h4 e).

Definition init : Chaining :=
  (1732584193, 4023233417, 2562383102, 271733878, 3285377520)%N.

Definition digest (msg : list N) : list N :=
  let p := pad msg in
  let '(h0, h1, h2, h3, h4) :=
    fold_left compress (blocks (length p / 64) p) init in
  be_bytes 4 h0 ++ be_bytes 4 h1 ++ be_bytes 4 h2 ++ be_bytes 4 h3
    ++ be_bytes 4 h4.

Definition to_byte (n : N) : byte :=
  match Byte.of_N n with Some b => b | None => x00 end.

Definition Sum (s : string) : list byte :=
  map to_byte (digest (map Byte.to_N (list_byte_of_string s))).

End SHA1.

Module Demo.

(** A file system as a table from directory to what [build.ImportDir]
    answers there; a path outside the table does not exist. *)
Fixpoint assoc (fs : list (string * ImportResult)) (p : string)
  : option ImportResult :=
  match fs with
  | [] => None
  | (q, r) :: fs => if String.eqb p q then Some r else assoc fs p
  end.

Definition unix (tool goroot : string) (fs : list (string * ImportResult))
  : Env :=
  {| filepath_Join := GoPath.Join;
     path_Join := GoPath.Join;
     sha1_Sum := SHA1.Sum;
     GOROOT := goroot;
     os_Stat := fun p =>
       match assoc fs p with
       | Some _ => StatOk
       | None => StatErr true ("stat " +:+ p +:+ ": no such file or directory")
       end;
     build_ImportDir := fun p =>
       match assoc fs p with
       | Some r => r
       | None => ImportError ("open " +:+ p +:+ ": no such file or directory")
       end;
     tool_dir := tool |}.

(** What [build.ImportDir] makes of a directory: it does not know the
    import path and reports [.]. *)
Definition on_disk (dir name : string) (imports : list string)
  : ImportResult :=
  Imported {| ImportPath := "."; Dir := dir; Name := name;
              Imports := imports |}.

Definition no_go (dir : string) : ImportResult :=
  NoGoError ("no buildable Go source files in " +:+ dir).

(** A project in [/proj] with vendored packages [x/a] and [x/b] that both
    import [x/c], which imports [x/a] back; [x/both] is vendored and in
    the standard library root as well; [example.com/foo/bar] is in the
    cache directory of the scope [example.com/foopin=v1]. *)
Definition pinned : string :=
  "/proj/.golo/cache/b8/97dc27ff41a9a5efd40732529f8b1082387f14".

Definition disk : list (string * ImportResult) :=
  [ ("/go/src/fmt", on_disk "/go/src/fmt" "fmt" []);
    ("/go/src/x/both", on_disk "/go/src/x/both" "both" []);
    ("/proj/vendor/x/both", on_disk "/proj/vendor/x/both" "both" ["fmt"]);
    ("/proj/vendor/x/a", on_disk "/proj/vendor/x/a" "a" ["x/c"; "fmt"]);
    ("/proj/vendor/x/b", on_disk "/proj/vendor/x/b" "b" ["x/c"]);
    ("/proj/vendor/x/c", on_disk "/proj/vendor/x/c" "c" ["x/a"; "fmt"]);
    ("/proj/vendor/x/empty", no_go "/proj/vendor/x/empty");
    (pinned +:+ "/example.com/foo/bar",
     on_disk (pinned +:+ "/example.com/foo/bar") "bar" []) ].

Definition golo : Env := unix ".golo" "/go" disk.
Definition kodos : Env := unix ".kang" "/go" disk.

(** The package of the project itself, as the scanner hands it over. *)
Definition app : Package :=
  {| ImportPath := "example.com/app"; Dir := "/proj"; Name := "main";
     Imports := ["fmt"; "x/a"; "x/b"] |}.

Definition universe : list string := ["fmt"; "x/a"; "x/b"; "x/c"].

(** The project tree [/proj/{a, a/b}] of buildable directories, with a
    directory of each ignored kind, a plain file and a directory
    without Go source. *)
Definition leaf (name : string) (imports : list string) : DirTree :=
  MkDir (inr [(name +:+ ".go", None)])
        (fun dir => on_disk dir name imports).

Definition dir_docs : DirTree := MkDir (inr [("README.md", None)]) no_go.

Definition dir_a : DirTree :=
  MkDir (inr [("a.go", None); ("b", Some (leaf "b" ["fmt"]))])
        (fun dir => on_disk dir "a" ["example.com/app/a/b"]).

Definition tree : DirTree :=
  MkDir (inr [ (".git", Some (leaf "hooks" []));
               ("_ignored", Some (leaf "ignored" []));
               ("testdata", Some (leaf "fixture" []));
               ("vendor", Some (MkDir (inr [("x", Some (leaf "x" []))]) no_go));
               ("main.go", None);
               ("docs", Some dir_docs);
               ("a", Some dir_a) ])
        (fun dir => on_disk dir "main" ["example.com/app/a"]).

(** A tree with a directory whose Go source does not parse. *)
Definition dir_bad : DirTree :=
  MkDir (inr [("bad.go", None)])
        (fun dir => ImportError (dir +:+ "/bad.go:1:1: expected 'package'")).

Definition broken : DirTree :=
  MkDir (inr [("bad", Some dir_bad)]) (fun dir => on_disk dir "main" []).

End Demo.

(** ** The rest of the two commands *)

(** The [build] case of [main], from [loadSources] to the package set
    handed to [ctx.Transform] (lines 90 to 95 of golo.go, 66 to 71 of
    kodos.go): the same directory is the root of the scan and the
    project root of the resolution. *)
Definition build {E : Env} (fuel : nat) (prefix dir : string) (t : DirTree)
  : option (Run (list Package)) :=
  match loadSources prefix dir t with
  | Done srcs0 => loadDependencies fuel dir srcs0
  | Exited msg => Some (Exited msg)
  end.

(** What [os.Stat] answers, with the mode of the file: a directory,
    another file, or an error. *)
Inductive StatMode : Type :=
| ModeDir
| ModeOther
| ModeErr (notExist : bool) (err : string).

(** What kodos.go calls beyond the environment of the shared functions:
    [filepath.Dir], [os.Stat] with the mode of the file, and
    [gitconfig.OriginURL()], a URL or an error. *)
Class Repo : Type := MkRepo {
  filepath_Dir : string -> string;
  os_Stat_mode : string -> StatMode;
  gitconfig_OriginURL : string + string
}.

Module GoStrings.




End GoStrings.

Module Kodos.

Section Kodos.

Context {E : Env} {R : Repo}.

(** The loop of [findreporoot]; a Go pair [(string, error)] is a pair
    with an optional error, and [None] is a loop longer than [fuel]. *)
Fixpoint findreporoot_from (fuel : nat) (orig dir : string)
  : option (Run (string * option string)) :=
  match fuel with
  | O => None
  | S fuel =>
      let path := filepath_Join [dir; ".git"] in
      match os_Stat_mode path with
      | ModeDir => Some (Done (dir, None))
      | ModeErr false err => Some (fatal err [])
      | ModeOther | ModeErr true _ =>
          let d := filepath_Dir dir in
          if String.eqb d dir then
            (* got to the root directory without *)
            Some (Done ("", Some ("could not locate .git in " +:+ orig)))
          else findreporoot_from fuel orig d
      end
  end.

(** findreporoot returns the location of the closest .git directory
    relative to the dir provided. *)
Definition findreporoot (fuel : nat) (dir : string)
  : option (Run (string * option string)) :=
  findreporoot_from fuel dir dir.


(** The directory [n] steps of [filepath.Dir] above [dir]. *)
Definition above (n : nat) (dir : string) : string :=
  Nat.iter n filepath_Dir dir.

(** [dir] holds no [.git] directory, and [os.Stat] does not fail there
    otherwise than by the absence of [.git]: the loop goes on. *)
Definition no_repo (dir : string) : Prop :=
  match os_Stat_mode (filepath_Join [dir; ".git"]) with
  | ModeOther | ModeErr true _ => True
  | ModeDir | ModeErr false _ => False
  end.

End Kodos.

End Kodos.

(** *** Notions the further properties are stated with *)

(** Each descriptor of [added] comes after a package that imports it,
    in [base] or earlier in [added]. *)
Definition preceded (base added : list Package) : Prop :=
  forall i q,
    added !! i = Some q ->
    exists p, p ∈ base ++ take i added /\ ImportPath q ∈ Imports p.

(** The calls [load] makes for the descriptors [added], one after the
    other. *)
Definition calls {E : Env} (rootdir : string) (added : list Package)
  : list Event :=
  flat_map (fun p => fst (load rootdir (ImportPath p))) added.

(** The directories [build.ImportDir] was called on. *)
Fixpoint imports_of (t : list Event) : list string :=
  match t with
  | [] => []
  | EvImportDir dir :: t => dir :: imports_of t
  | _ :: t => imports_of t
  end.

(** Two descriptors of the same source: they agree but for their
    [ImportPath]. *)
Definition same_source (p p' : Package) : Prop :=
  Dir p = Dir p' /\ Name p = Name p' /\ Imports p = Imports p'.

(** Two outcomes of a scan that list the same sources, or exit with
    the same message. *)
Definition same_result (r r' : Run (list Package)) : Prop :=
  match r, r' with
  | Done l, Done l' => Forall2 same_source l l'
  | Exited msg, Exited msg' => msg = msg'
  | _, _ => False
  end.

(** The error a directory scanned as [dir] ends the scan with. *)
Definition failure (dir : string) (t : DirTree) : option string :=
  match t with
  | MkDir (inl err) _ => Some err
  | MkDir (inr _) source =>
      match source dir with
      | ImportError err => Some err
      | _ => None
      end
  end.

(** Reading back what [hex] writes: the digit value whose [hex_digit]
    is the character. *)
Definition unhex_digit (c : ascii) : option N :=
  List.find (fun n => Ascii.eqb (hex_digit n) c)
            (map N.of_nat (seq 0 16)).

Fixpoint unhex (s : string) : option (list byte) :=
  match s with
  | EmptyString => Some []
  | String hi (String lo s) =>
      match unhex_digit hi, unhex_digit lo, unhex s with
      | Some h, Some l, Some b =>
          match Byte.of_N (16 * h + l) with
          | Some x => Some (x :: b)
          | None => None
          end
      | _, _, _ => None
      end
  | String _ EmptyString => None
  end.

Module GoFilepath.

(** [path[:i+1]] for the last slash [i] of [path], empty without one. *)
Fixpoint upto_last_slash (s : string) : string :=
  match s with
  | EmptyString => ""
  | String c s' =>
      let r := upto_last_slash s' in
      if String.eqb r "" then
        if Ascii.eqb c "/" then "/" else ""
      else String c r
  end.

(** [filepath.Dir] on a slash-separated path. *)
Definition Dir (path : string) : string :=
  GoPath.Clean (upto_last_slash path).

End GoFilepath.

Module DemoRepo.

(** A checkout in [/home/u/proj] with a submodule in [sub], whose [.git]
    is a file, and a directory [locked] that cannot be searched. *)
Definition mode (p : string) : StatMode :=
  if String.eqb p "/home/u/proj/.git" then ModeDir
  else if String.eqb p "/home/u/proj/sub/.git" then ModeOther
  else if String.eqb p "/home/u/proj/locked/.git" then
    ModeErr false "stat /home/u/proj/locked/.git: permission denied"
  else ModeErr true ("stat " +:+ p +:+ ": no such file or directory").

Definition kodos : Repo :=
  {| filepath_Dir := GoFilepath.Dir;
     os_Stat_mode := mode;
     gitconfig_OriginURL := inl "https://github.com/bketelsen/kodos" |}.

(** The project tree of [Demo] with a second package directory. *)
Definition two : DirTree :=
  MkDir (inr [ ("a", Some Demo.dir_a);
               ("vendor", Some (Demo.leaf "x" []));
               ("z", Some (Demo.leaf "z" ["x/a"])) ])
        Demo.no_go.

End DemoRepo.

(** * Properties *)

(** The library models on inputs from the documentation of [path.Clean]
    and on the test vectors of SHA-1. *)
Example Clean_examples :
  map GoPath.Clean
      ["a/c"; "a//c"; "a/c/."; "a/c/b/.."; "/../a/c"; "/../a/b/../././/c";
       ""; "abc/def/"; "a/b/c/../../../.."; "../../abc"; "/"]
  = ["a/c"; "a/c"; "a/c"; "a/c"; "/a/c"; "/a/c";
     "."; "abc/def"; ".."; "../../abc"; "/"].
Proof. reflexivity. Qed.

Example Join_examples :
  GoPath.Join ["/go"; "src"; "fmt"] = "/go/src/fmt" /\
  GoPath.Join [""; "a"; ""; "b/"] = "a/b" /\
  GoPath.Join [""; ""] = "".
Proof. repeat split. Qed.

Example SHA1_examples :
  hex (SHA1.Sum "abc") = "a9993e364706816aba3e25717850c26c9cd0d89d" /\
  hex (SHA1.Sum "") = "da39a3ee5e6b4b0d3255bfef95601890afd80709" /\
  hex (SHA1.Sum "abcdbcdecdefdefgefghfghighijhijkijkljklmklmnlmnomnopnopq")
  = "84983e441c3bd26ebaae4aa1f95129e5e54670f1".
Proof. vm_compute. repeat split. Qed.

(** Induction on a source tree: a directory has the property when the
    directories of its entries have it. *)
Lemma DirTree_nested_ind (P : DirTree -> Prop) :
  (forall err source, P (MkDir (inl err) source)) ->
  (forall files source,
      Forall (fun fi : FileInfo => forall sub, snd fi = Some sub -> P sub)
             files ->
      P (MkDir (inr files) source)) ->
  forall t, P t.
Proof.
  intros Herr Hdir.
  fix IH 1.
  intros [[err | files] source].
  - apply Herr.
  - apply Hdir.
    induction files as [| [name [sub |]] files IHfiles].
    + constructor.
    + constructor; [| exact IHfiles].
      simpl. intros sub' Heq. injection Heq as <-. apply IH.
    + constructor; [| exact IHfiles].
      simpl. intros sub' Heq. discriminate Heq.
Qed.

(** ** Source Tree Scanner *)

Lemma loadSources_unfold {E : Env} prefix dir files source :
  loadSources prefix dir (MkDir (inr files) source) =
  match rangeFiles (visit prefix dir) files [] with
  | Exited msg => Exited msg
  | Done srcs =>
      match source dir with
      | Imported pkg => Done (srcs ++ [setImportPath pkg prefix])
      | NoGoError _ => Done srcs
      | ImportError err => fatal err []
      end
  end.
Proof. reflexivity. Qed.

(** The loop appends to what it was given. *)
Lemma rangeFiles_acc v files acc :
  rangeFiles v files acc =
  match rangeFiles v files [] with
  | Done more => Done (acc ++ more)
  | Exited msg => Exited msg
  end.
Proof.
  revert acc.
  induction files as [| [name fi] files IH]; intros acc; simpl.
  - by rewrite app_nil_r.
  - destruct (ignored name); [apply IH |].
    destruct fi as [sub |]; [| apply IH].
    destruct (v name sub) as [more | msg]; [| reflexivity].
    rewrite (IH (acc ++ more)), (IH more).
    destruct (rangeFiles v files []); [| reflexivity].
    by rewrite app_assoc.
Qed.

(** The result of a visited entry is a segment of the loop's result. *)
Lemma rangeFiles_segment v files acc out name sub :
  rangeFiles v files acc = Done out ->
  (name, Some sub) ∈ files ->
  ignored name = false ->
  exists more l1 l2, v name sub = Done more /\ out = l1 ++ more ++ l2.
Proof.
  revert acc.
  induction files as [| [name' fi] files IH]; intros acc Hout Hin Hvis.
  - by apply elem_of_nil in Hin.
  - apply elem_of_cons in Hin as [Heq | Hin].
    + injection Heq as <- <-. simpl in Hout. rewrite Hvis in Hout.
      destruct (v name sub) as [more | msg]; [| discriminate].
      rewrite rangeFiles_acc in Hout.
      destruct (rangeFiles v files []) as [rest |]; [| discriminate].
      injection Hout as <-.
      exists more, acc, rest. split; [reflexivity |].
      by rewrite <- app_assoc.
    + simpl in Hout.
      destruct (ignored name'); [by eapply IH |].
      destruct fi as [sub' |]; [| by eapply IH].
      destruct (v name' sub'); [by eapply IH | discriminate].
Qed.

(** Whatever the loop adds comes from a visited entry. *)
Lemma rangeFiles_origin v files acc out p :
  rangeFiles v files acc = Done out ->
  p ∈ out ->
  p ∈ acc \/
  exists name sub more,
    (name, Some sub) ∈ files /\ ignored name = false /\
    v name sub = Done more /\ p ∈ more.
Proof.
  revert acc.
  induction files as [| [name fi] files IH]; intros acc Hout Hp; simpl in Hout.
  - injection Hout as <-. by left.
  - assert (Hrest : forall acc',
               rangeFiles v files acc' = Done out ->
               (p ∈ acc' -> p ∈ acc) ->
               p ∈ acc \/
               exists name0 sub more,
                 (name0, Some sub) ∈ (name, fi) :: files /\
                 ignored name0 = false /\
                 v name0 sub = Done more /\ p ∈ more).
    { intros acc' Hout' Hacc.
      destruct (IH _ Hout' Hp) as [Hin | (n & sb & more & Hin & Hv & Hd & Hm)].
      - left. by apply Hacc.
      - right. exists n, sb, more. split; [by apply elem_of_cons; right |].
        done. }
    destruct (ignored name) eqn:Hign; [by apply (Hrest acc) |].
    destruct fi as [sub |]; [| by apply (Hrest acc)].
    destruct (v name sub) as [more | msg] eqn:Hv; [| discriminate].
    destruct (IH _ Hout Hp) as [Hin | (n & sb & more' & Hin & Hv' & Hd & Hm)].
    + apply elem_of_app in Hin as [Hin | Hin]; [by left |].
      right. exists name, sub, more.
      split; [by apply elem_of_cons; left |]. done.
    + right. exists n, sb, more'. split; [by apply elem_of_cons; right |].
      done.
Qed.

(** An exit in a visited entry is an exit of the loop. *)
Lemma rangeFiles_exit v files acc name sub msg :
  (name, Some sub) ∈ files ->
  ignored name = false ->
  v name sub = Exited msg ->
  exists msg', rangeFiles v files acc = Exited msg'.
Proof.
  revert acc.
  induction files as [| [name' fi] files IH]; intros acc Hin Hvis Hv.
  - by apply elem_of_nil in Hin.
  - apply elem_of_cons in Hin as [Heq | Hin].
    + injection Heq as <- <-. simpl. rewrite Hvis, Hv. by eexists.
    + simpl.
      destruct (ignored name'); [by apply IH |].
      destruct fi as [sub' |]; [| by apply IH].
      destruct (v name' sub'); [by apply IH | by eexists].
Qed.

(** The scan of a directory reached through entries that are not
    ignored is a segment of the scan of the whole tree. *)
Lemma loadSources_segment {E : Env} t names t' :
  visible t names t' ->
  forall prefix dir srcs,
    loadSources prefix dir t = Done srcs ->
    exists srcs' l1 l2,
      loadSources (moduleID prefix names) (directory dir names) t'
        = Done srcs' /\
      srcs = l1 ++ srcs' ++ l2.
Proof.
  induction 1 as [t | files source name sub names t' Hin Hvis _ IH];
    intros prefix dir srcs Hscan.
  - exists srcs, [], []. split; [exact Hscan | by rewrite app_nil_r].
  - rewrite loadSources_unfold in Hscan.
    destruct (rangeFiles (visit prefix dir) files []) as [out | msg] eqn:Hout;
      [| discriminate].
    destruct (rangeFiles_segment _ _ _ _ _ _ Hout Hin Hvis)
      as (more & l1 & l2 & Hmore & ->).
    destruct (IH _ _ _ Hmore) as (srcs' & k1 & k2 & Hsub & ->).
    exists srcs'.
    destruct (source dir) as [pkg | err | err].
    + injection Hscan as <-.
      exists (l1 ++ k1), (k2 ++ l2 ++ [setImportPath pkg prefix]).
      split; [exact Hsub |]. by rewrite <- !app_assoc.
    + injection Hscan as <-.
      exists (l1 ++ k1), (k2 ++ l2).
      split; [exact Hsub |]. by rewrite <- !app_assoc.
    + discriminate.
Qed.

(** A directory with buildable source comes last in its own scan. *)
Lemma loadSources_self_last {E : Env} prefix dir t srcs pkg :
  loadSources prefix dir t = Done srcs ->
  source_of t dir = Imported pkg ->
  exists children, srcs = children ++ [setImportPath pkg prefix].
Proof.
  destruct t as [[err | files] source]; simpl source_of; intros Hscan Hsrc.
  - discriminate.
  - rewrite loadSources_unfold, Hsrc in Hscan.
    destruct (rangeFiles (visit prefix dir) files []) as [out | msg];
      [| discriminate].
    injection Hscan as <-. by exists out.
Qed.

(** Every descriptor of a scan is the source of a directory reached
    through entries that are not ignored, under the identifier those
    entries spell. *)
Lemma loadSources_origin {E : Env} t :
  forall prefix dir srcs p,
    loadSources prefix dir t = Done srcs ->
    p ∈ srcs ->
    exists names t' pkg,
      visible t names t' /\
      source_of t' (directory dir names) = Imported pkg /\
      p = setImportPath pkg (moduleID prefix names).
Proof.
  induction t as [err source | files source IH] using DirTree_nested_ind;
    intros prefix dir srcs p Hscan Hp.
  - discriminate.
  - rewrite loadSources_unfold in Hscan.
    destruct (rangeFiles (visit prefix dir) files []) as [out | msg] eqn:Hout;
      [| discriminate].
    assert (Hchild : p ∈ out ->
              exists names t' pkg,
                visible (MkDir (inr files) source) names t' /\
                source_of t' (directory dir names) = Imported pkg /\
                p = setImportPath pkg (moduleID prefix names)).
    { intros Hin.
      destruct (rangeFiles_origin _ _ _ _ _ Hout Hin)
        as [Hnil | (name & sub & more & Hfile & Hvis & Hmore & Hpm)].
      - by apply elem_of_nil in Hnil.
      - rewrite Forall_forall in IH.
        destruct (IH _ Hfile sub eq_refl _ _ _ _ Hmore Hpm)
          as (names & t' & pkg & Hreach & Hsrc & ->).
        exists (name :: names), t', pkg.
        split; [by econstructor |]. done. }
    destruct (source dir) as [pkg | err | err] eqn:Hsrc.
    + injection Hscan as <-.
      apply elem_of_app in Hp as [Hp | Hp]; [by apply Hchild |].
      apply list_elem_of_singleton in Hp as ->.
      exists [], (MkDir (inr files) source), pkg.
      split; [constructor |]. done.
    + injection Hscan as <-. by apply Hchild.
    + discriminate.
Qed.

(** The scan does not depend on what ignored entries hold. *)
Lemma loadSources_prune {E : Env} t :
  forall prefix dir,
    loadSources prefix dir (prune t) = loadSources prefix dir t.
Proof.
  induction t as [err source | files source IH] using DirTree_nested_ind;
    intros prefix dir.
  - reflexivity.
  - simpl prune. rewrite !loadSources_unfold.
    match goal with
    | |- context [rangeFiles _ (?f files) []] => set (entries := f)
    end.
    assert (Hloop : forall acc,
               rangeFiles (visit prefix dir) (entries files) acc =
               rangeFiles (visit prefix dir) files acc).
    { induction files as [| [name fi] files IHfiles]; intros acc.
      - reflexivity.
      - apply Forall_cons in IH as [Hsub IH]. simpl.
        destruct (ignored name) eqn:Hign; [by apply IHfiles |].
        simpl. rewrite Hign.
        destruct fi as [sub |]; [| by apply IHfiles].
        unfold visit at 1 3. rewrite (Hsub sub eq_refl).
        destruct (loadSources _ _ sub); [by apply IHfiles | reflexivity]. }
    by rewrite Hloop.
Qed.

(** One failing directory among those the scan visits ends the scan. *)
Lemma loadSources_abort {E : Env} t names t' :
  visible t names t' ->
  forall prefix dir,
    fails (directory dir names) t' ->
    exists msg, loadSources prefix dir t = Exited msg.
Proof.
  induction 1 as [t | files source name sub names t' Hin Hvis _ IH];
    intros prefix dir Hfail.
  - destruct t as [[err | files] source].
    + by eexists.
    + rewrite loadSources_unfold. simpl in Hfail.
      destruct (rangeFiles _ files []); [| by eexists].
      destruct (source dir); try contradiction. by eexists.
  - rewrite loadSources_unfold.
    destruct (IH (path_Join [prefix; name]) (filepath_Join [dir; name]) Hfail)
      as [msg Hmsg].
    destruct (rangeFiles_exit (visit prefix dir) files [] name sub msg
                Hin Hvis Hmsg) as [msg' ->].
    by eexists.
Qed.

(** The loop returns when every entry it visits returns. *)
Lemma rangeFiles_returns v files acc :
  (forall name sub,
      (name, Some sub) ∈ files -> ignored name = false ->
      exists more, v name sub = Done more) ->
  exists out, rangeFiles v files acc = Done out.
Proof.
  revert acc.
  induction files as [| [name fi] files IH]; intros acc Hvisit; simpl.
  - by eexists.
  - assert (Hrest : forall name0 sub,
               (name0, Some sub) ∈ files -> ignored name0 = false ->
               exists more, v name0 sub = Done more).
    { intros name0 sub Hin. apply Hvisit. by apply list_elem_of_further. }
    destruct (ignored name) eqn:Hign; [by apply IH |].
    destruct fi as [sub |]; [| by apply IH].
    destruct (Hvisit name sub (list_elem_of_here _ _) Hign) as [more ->].
    by apply IH.
Qed.

(** The scan returns when no directory it visits fails. *)
Lemma loadSources_returns {E : Env} t :
  forall prefix dir,
    (forall names t',
        visible t names t' -> ~ fails (directory dir names) t') ->
    exists srcs, loadSources prefix dir t = Done srcs.
Proof.
  induction t as [err source | files source IH] using DirTree_nested_ind;
    intros prefix dir Hok.
  - destruct (Hok [] _ (visible_here _)). exact I.
  - rewrite loadSources_unfold.
    destruct (rangeFiles_returns (visit prefix dir) files []) as [out ->].
    { intros name sub Hin Hign. rewrite Forall_forall in IH.
      apply (IH _ Hin sub eq_refl). intros names t' Hreach.
      apply (Hok (name :: names)). by econstructor. }
    pose proof (Hok [] _ (visible_here _)) as Hself. simpl in Hself.
    destruct (source dir); [by eexists | by eexists | by destruct Hself].
Qed.

Lemma visible_names t names t' :
  visible t names t' -> Forall (fun name => ignored name = false) names.
Proof. induction 1; by constructor. Qed.

Lemma ignored_spec name :
  ignored name = true <->
  String.prefix "." name = true \/ String.prefix "_" name = true \/
  name = "testdata" \/ name = "vendor".
Proof.
  unfold ignored. rewrite !orb_true_iff, !String.eqb_eq. tauto.
Qed.

(** C5.  An entry is ignored exactly when its name starts with [.] or
    [_] or is [testdata] or [vendor].  The scan of a tree is the scan of
    the tree without its ignored entries, so what they hold is neither
    listed nor loaded; and every descriptor the scan returns is the
    source of a directory reached through entries none of which is
    ignored, its module identifier being the prefix extended by the
    names of these entries. *)
Theorem scan_skips_ignored {E : Env} prefix dir t :
  (forall name,
      ignored name = true <->
      String.prefix "." name = true \/ String.prefix "_" name = true \/
      name = "testdata" \/ name = "vendor") /\
  loadSources prefix dir t = loadSources prefix dir (prune t) /\
  forall srcs p,
    loadSources prefix dir t = Done srcs ->
    p ∈ srcs ->
    exists names t' pkg,
      Forall (fun name => ignored name = false) names /\
      visible t names t' /\
      source_of t' (directory dir names) = Imported pkg /\
      p = setImportPath pkg (moduleID prefix names).
Proof.
  split; [exact ignored_spec |].
  split; [by rewrite loadSources_prune |].
  intros srcs p Hscan Hp.
  destruct (loadSources_origin t _ _ _ _ Hscan Hp)
    as (names & t' & pkg & Hreach & Hsrc & Heq).
  exists names, t', pkg.
  split; [by eapply visible_names |]. done.
Qed.

(** On the example tree, with [.git], [_ignored], [testdata] and
    [vendor] directories that all hold Go source, the scan returns the
    three packages of the project and nothing else. *)
Lemma scan_skips_ignored_witness :
  loadSources (E := Demo.golo) "example.com/app" "/proj" Demo.tree
  = loadSources (E := Demo.golo) "example.com/app" "/proj" (prune Demo.tree)
  /\ prune Demo.tree <> Demo.tree
  /\ exists srcs,
       loadSources (E := Demo.golo) "example.com/app" "/proj" Demo.tree
       = Done srcs /\
       map ImportPath srcs
       = ["example.com/app/a/b"; "example.com/app/a"; "example.com/app"].
Proof.
  split; [| split].
  - apply (proj1 (proj2 (scan_skips_ignored (E := Demo.golo)
                           "example.com/app" "/proj" Demo.tree))).
  - discriminate.
  - eexists. split; reflexivity.
Defined.

Lemma moduleID_snoc {E : Env} prefix names name names' :
  moduleID prefix (names ++ name :: names') =
  moduleID (path_Join [moduleID prefix names; name]) names'.
Proof. unfold moduleID. by rewrite fold_left_app. Qed.

Lemma directory_snoc {E : Env} dir names name names' :
  directory dir (names ++ name :: names') =
  directory (filepath_Join [directory dir names; name]) names'.
Proof. unfold directory. by rewrite fold_left_app. Qed.

(** C6.  Children before self: when a scan returns, a directory with
    buildable source and any directory with buildable source below it
    (both reached through entries that are not ignored) both have their
    descriptor in the returned sequence, the descendant's before the
    ancestor's. *)
Theorem children_before_self {E : Env} prefix dir t srcs
    names name names' ta td pa pd :
  loadSources prefix dir t = Done srcs ->
  visible t names ta ->
  visible ta (name :: names') td ->
  source_of ta (directory dir names) = Imported pa ->
  source_of td (directory dir (names ++ name :: names')) = Imported pd ->
  exists l1 l2 l3,
    srcs =
      l1 ++ setImportPath pd (moduleID prefix (names ++ name :: names'))
         :: l2 ++ setImportPath pa (moduleID prefix names) :: l3.
Proof.
  intros Hscan Ha Hd Hpa Hpd.
  destruct (loadSources_segment _ _ _ Ha _ _ _ Hscan)
    as (srcs_a & k1 & k2 & Hscan_a & ->).
  inversion Hd as [| files source name0 sub names0 t0 Hin Hvis Hsub]; subst.
  simpl in Hpa.
  rewrite loadSources_unfold, Hpa in Hscan_a.
  destruct (rangeFiles _ files []) as [out |] eqn:Hout; [| discriminate].
  injection Hscan_a as <-.
  destruct (rangeFiles_segment _ _ _ _ _ _ Hout Hin Hvis)
    as (more & j1 & j2 & Hmore & ->).
  destruct (loadSources_segment _ _ _ Hsub _ _ _ Hmore)
    as (srcs_d & i1 & i2 & Hscan_d & ->).
  rewrite directory_snoc in Hpd.
  destruct (loadSources_self_last _ _ _ _ _ Hscan_d Hpd) as (children & ->).
  exists (k1 ++ j1 ++ i1 ++ children), (i2 ++ j2), k2.
  rewrite moduleID_snoc, <- !app_assoc. reflexivity.
Qed.

(** The tree [/proj/{a, a/b}] of the example: [prefix/a/b] comes before
    [prefix/a]. *)
Lemma children_before_self_witness :
  exists l1 l2 l3,
    loadSources (E := Demo.golo) "example.com/app" "/proj" Demo.tree
    = Done (l1 ++ {| ImportPath := "example.com/app/a/b";
                     Dir := "/proj/a/b"; Name := "b";
                     Imports := ["fmt"] |}
               :: l2 ++ {| ImportPath := "example.com/app/a";
                           Dir := "/proj/a"; Name := "a";
                           Imports := ["example.com/app/a/b"] |} :: l3).
Proof.
  destruct (loadSources (E := Demo.golo) "example.com/app" "/proj"
              Demo.tree) as [srcs | msg] eqn:Hscan;
    [| vm_compute in Hscan; discriminate Hscan].
  destruct (children_before_self (E := Demo.golo)
              "example.com/app" "/proj" Demo.tree srcs
              ["a"] "b" [] Demo.dir_a (Demo.leaf "b" ["fmt"])
              {| ImportPath := "."; Dir := "/proj/a"; Name := "a";
                 Imports := ["example.com/app/a/b"] |}
              {| ImportPath := "."; Dir := "/proj/a/b"; Name := "b";
                 Imports := ["fmt"] |})
    as (l1 & l2 & l3 & Heq).
  - exact Hscan.
  - eapply visible_step; [| reflexivity | apply visible_here].
    unfold Demo.tree. do 6 apply list_elem_of_further.
    apply list_elem_of_here.
  - eapply visible_step; [| reflexivity | apply visible_here].
    apply list_elem_of_further, list_elem_of_here.
  - reflexivity.
  - reflexivity.
  - exists l1, l2, l3. rewrite Heq. reflexivity.
Defined.

(** C7.  When the loop over the entries of a directory is over, with
    the descriptors [children]: buildable source adds exactly one
    descriptor, whose module identifier is the prefix; the absence of
    buildable source adds nothing and is no error; any other failure of
    [build.ImportDir] is fatal.  A fatal failure in any directory the
    scan visits ends the whole scan, and nothing else does: directories
    without buildable source never keep a scan from returning. *)
Theorem scan_loads_directory {E : Env} prefix dir files source children :
  rangeFiles (visit prefix dir) files [] = Done children ->
  (forall pkg,
      source dir = Imported pkg ->
      loadSources prefix dir (MkDir (inr files) source)
      = Done (children ++ [setImportPath pkg prefix]) /\
      ImportPath (setImportPath pkg prefix) = prefix) /\
  (forall err,
      source dir = NoGoError err ->
      loadSources prefix dir (MkDir (inr files) source) = Done children) /\
  (forall err,
      source dir = ImportError err ->
      loadSources prefix dir (MkDir (inr files) source)
      = Exited ("fatal: " +:+ err +:+ LF)) /\
  (forall t names prefix' dir',
      visible t names (MkDir (inr files) source) ->
      (exists err, source (directory dir' names) = ImportError err) ->
      exists msg, loadSources prefix' dir' t = Exited msg) /\
  (forall t prefix' dir',
      (forall names t',
          visible t names t' -> ~ fails (directory dir' names) t') ->
      exists srcs, loadSources prefix' dir' t = Done srcs).
Proof.
  intros Hloop.
  split; [| split; [| split; [| split]]].
  - intros pkg Hsrc. by rewrite loadSources_unfold, Hloop, Hsrc.
  - intros err Hsrc. by rewrite loadSources_unfold, Hloop, Hsrc.
  - intros err Hsrc. by rewrite loadSources_unfold, Hloop, Hsrc.
  - intros t names prefix' dir' Hreach [err Hsrc].
    eapply loadSources_abort; [exact Hreach |]. simpl. by rewrite Hsrc.
  - intros t prefix' dir'. apply loadSources_returns.
Qed.

(** The directory [docs] of the example tree has no Go source and adds
    nothing; the directory [bad] of the broken tree ends the scan. *)
Lemma scan_loads_directory_witness :
  loadSources (E := Demo.golo) "example.com/app/docs" "/proj/docs"
    Demo.dir_docs
  = Done [] /\
  exists msg,
    loadSources (E := Demo.golo) "example.com/app" "/proj" Demo.broken
    = Exited msg.
Proof.
  split.
  - apply (proj1 (proj2
             (scan_loads_directory (E := Demo.golo)
                "example.com/app/docs" "/proj/docs" [("README.md", None)]
                Demo.no_go [] eq_refl)))
      with (err := "no buildable Go source files in /proj/docs").
    reflexivity.
  - apply (proj1 (proj2 (proj2 (proj2
             (scan_loads_directory (E := Demo.golo)
                "example.com/app/bad" "/proj/bad" [("bad.go", None)]
                (fun dir => ImportError
                              (dir +:+ "/bad.go:1:1: expected 'package'"))
                [] eq_refl))))) with (names := ["bad"]).
    + eapply visible_step; [| reflexivity | apply visible_here].
      apply list_elem_of_here.
    + by eexists.
Defined.

(** ** The load primitive *)

Lemma append_assoc (s1 s2 s3 : string) :
  (s1 +:+ s2) +:+ s3 = s1 +:+ (s2 +:+ s3).
Proof.
  induction s1 as [| c s1 IH]; [reflexivity |].
  change (String c ((s1 +:+ s2) +:+ s3) = String c (s1 +:+ (s2 +:+ s3))).
  by rewrite IH.
Qed.

Lemma importPath_spec {E : Env} path dir :
  importPath path dir
  = ([EvImportDir dir], imported path (build_ImportDir dir)).
Proof.
  unfold importPath, ImportDir, IO_bind, imported.
  by destruct (build_ImportDir dir).
Qed.

Lemma load_spec {E : Env} rootdir path :
  let std := filepath_Join [GOROOT; "src"; path] in
  let vend := filepath_Join [rootdir; "vendor"; path] in
  load rootdir path =
  match os_Stat std with
  | StatOk =>
      ([EvLoad path; EvStat std; EvImportDir std],
       imported path (build_ImportDir std))
  | StatErr _ _ =>
      match os_Stat vend with
      | StatOk =>
          ([EvLoad path; EvStat std; EvStat vend; EvImportDir vend],
           imported path (build_ImportDir vend))
      | StatErr _ err =>
          ([EvLoad path; EvStat std; EvStat vend],
           Exited ("fatal: cannot resolve path" +:+ path +:+ " " +:+ err
                     +:+ LF))
      end
  end.
Proof.
  intros std vend. unfold load. fold std. fold vend.
  unfold Stat, IO_bind. simpl.
  destruct (os_Stat std) as [| b1 e1].
  - by rewrite importPath_spec.
  - destruct (os_Stat vend) as [| b2 e2].
    + by rewrite importPath_spec.
    + unfold lift, fatal, Sprintln. simpl.
      by rewrite !append_assoc.
Qed.

Lemma imported_ImportPath path r pkg :
  imported path r = Done pkg -> ImportPath pkg = path.
Proof. destruct r; simpl; intros [= <-]; reflexivity. Qed.

Lemma load_ImportPath {E : Env} rootdir path t pkg :
  load rootdir path = (t, Done pkg) -> ImportPath pkg = path.
Proof.
  rewrite load_spec.
  destruct (os_Stat _); [| destruct (os_Stat _)]; intros [= _ Hpkg];
    by eapply imported_ImportPath.
Qed.

Lemma load_loads {E : Env} rootdir path :
  loads (fst (load rootdir path)) = [path].
Proof.
  rewrite load_spec.
  by destruct (os_Stat _); [| destruct (os_Stat _)].
Qed.

(** A package that imports an identifier neither root holds: the
    resolution exits and the message names the identifier. *)
Example unresolved_import_example :
  loadDependencies (E := Demo.golo) 5 "/proj"
    [ {| ImportPath := "example.com/app"; Dir := "/proj"; Name := "main";
         Imports := ["fmt"; "x/missing"; "x/a"] |} ]
  = Some (Exited ("fatal: cannot resolve path" +:+ "x/missing" +:+ " "
                    +:+ "stat /proj/vendor/x/missing: no such file or directory"
                    +:+ LF)).
Proof. reflexivity. Qed.

(** C2, as the spec states it, fails: [x/both] is in the vendor
    directory of the example and in the standard library root, and the
    walk does not go on with the vendored package: it appends the one
    of the standard library root and never probes the vendor
    directory. *)
Lemma vendor_not_preferred :
  let vend := "/proj/vendor/x/both" in
  let vendored :=
    {| ImportPath := "."; Dir := vend; Name := "both"; Imports := ["fmt"] |} in
  let st0 := MkResolver ∅ [] [] in
  @os_Stat Demo.golo vend = StatOk /\
  @build_ImportDir Demo.golo vend = Imported vendored /\
  (~ exists t,
       walk (E := Demo.golo) 2 "/proj" "x/both" st0 =
       for_each (walk (E := Demo.golo) 1 "/proj") (Imports vendored)
         (MkResolver (<["x/both" := true]> ∅)
                     [setImportPath vendored "x/both"] t)) /\
  exists st,
    walk (E := Demo.golo) 2 "/proj" "x/both" st0 = Some (Done st) /\
    map Dir (srcs st) = ["/go/src/x/both"] /\
    probes (trace st) = ["/go/src/x/both"].
Proof.
  intros vend vendored st0.
  split; [reflexivity |]. split; [reflexivity |]. split.
  - intros [t Ht]. vm_compute in Ht. discriminate Ht.
  - eexists. split; [reflexivity |]. split; reflexivity.
Qed.

(** C2, amended.  The walk resolves an identifier it has not seen to
    the standard library root when the identifier is there, and to the
    vendor directory only when it is not: the descriptor it appends,
    before it walks the imports of that descriptor, is the one loaded
    from the first of the two directories that exists. *)
Theorem walk_prefers_standard_library {E : Env} fuel rootdir path st pkg :
  let std := filepath_Join [GOROOT; "src"; path] in
  let vend := filepath_Join [rootdir; "vendor"; path] in
  is_seen (seen st) path = false ->
  (os_Stat std = StatOk /\ build_ImportDir std = Imported pkg) \/
  (os_Stat std <> StatOk /\ os_Stat vend = StatOk /\
   build_ImportDir vend = Imported pkg) ->
  exists t,
    walk (S fuel) rootdir path st =
    for_each (walk fuel rootdir) (Imports pkg)
      (MkResolver (<[path := true]> (seen st))
                  (srcs st ++ [setImportPath pkg path])
                  (trace st ++ t)) /\
    probes t = match os_Stat std with
               | StatOk => [std]
               | StatErr _ _ => [std; vend]
               end.
Proof.
  intros std vend Hseen Hdir.
  pose proof (load_spec rootdir path) as Hload. simpl in Hload.
  fold std vend in Hload.
  simpl. rewrite Hseen, Hload.
  destruct Hdir as [[Hstd Hpkg] | (Hstd & Hvend & Hpkg)].
  - rewrite Hstd, Hpkg. simpl. eexists. split; reflexivity.
  - destruct (os_Stat std) as [| b e]; [done |].
    rewrite Hvend, Hpkg. simpl. eexists. split; reflexivity.
Qed.

Lemma walk_prefers_standard_library_witness :
  exists st,
    walk (E := Demo.golo) 1 "/proj" "x/both" (MkResolver ∅ [] [])
    = Some (Done st) /\
    Dir <$> srcs st = ["/go/src/x/both"].
Proof.
  destruct (walk_prefers_standard_library (E := Demo.golo)
              0 "/proj" "x/both" (MkResolver ∅ [] [])
              {| ImportPath := "."; Dir := "/go/src/x/both"; Name := "both";
                 Imports := [] |})
    as (t & Hwalk & _).
  - vm_compute. reflexivity.
  - left. split; reflexivity.
  - rewrite Hwalk. eexists. split; reflexivity.
Defined.

(** ** The override layer and the cache path *)

Lemma register_spec {E : Env} rootdir prefix kind arg next path :
  let dir :=
    filepath_Join [cacheDir rootdir (prefix +:+ kind +:+ "=" +:+ arg);
                   path] in
  register rootdir prefix kind arg next path =
  if String.prefix prefix path then
    match os_Stat dir with
    | StatErr true err => ([EvStat dir], Exited ("fatal: " +:+ err +:+ LF))
    | _ => ([EvStat dir; EvImportDir dir],
            imported path (build_ImportDir dir))
    end
  else next path.
Proof.
  intros dir. unfold register. fold dir.
  destruct (String.prefix prefix path); simpl; [| reflexivity].
  unfold Stat, IO_bind, lift. rewrite importPath_spec.
  by destruct (os_Stat dir) as [| [|] err].
Qed.

Lemma hex_length b : String.length (hex b) = 2 * length b.
Proof. induction b as [| x b IH]; simpl; [reflexivity | rewrite IH; lia]. Qed.

(** C4.  The function [register] returns hands an identifier that does
    not start with [prefix] to [next], unchanged.  For one that does,
    it looks at the identifier joined to the cache directory of the
    scope [prefix + kind + "=" + arg]: when that path does not exist
    the process exits, and otherwise the package is loaded from there,
    [next] not being called. *)
Theorem register_scopes_prefix {E : Env} rootdir prefix kind arg next path :
  let dir :=
    filepath_Join [cacheDir rootdir (prefix +:+ kind +:+ "=" +:+ arg);
                   path] in
  (String.prefix prefix path = false ->
   register rootdir prefix kind arg next path = next path) /\
  (String.prefix prefix path = true ->
   (forall err,
       os_Stat dir = StatErr true err ->
       register rootdir prefix kind arg next path
       = ([EvStat dir], Exited ("fatal: " +:+ err +:+ LF))) /\
   ((forall err, os_Stat dir <> StatErr true err) ->
    register rootdir prefix kind arg next path
    = ([EvStat dir; EvImportDir dir],
       imported path (build_ImportDir dir)))).
Proof.
  intros dir.
  pose proof (register_spec rootdir prefix kind arg next path) as Hreg.
  simpl in Hreg. fold dir in Hreg.
  split; [| intros Hpre; split].
  - intros Hpre. by rewrite Hreg, Hpre.
  - intros err Herr. by rewrite Hreg, Hpre, Herr.
  - intros Hex. rewrite Hreg, Hpre.
    destruct (os_Stat dir) as [| [|] err]; [done | | done].
    by destruct (Hex err).
Qed.

(** The example of the spec: with [example.com/foo] pinned to [v1],
    [example.com/foo/bar] comes from the cache directory of the scope
    [example.com/foopin=v1], [example.com/other] goes to the fallback,
    and [example.com/foo/baz], which the cache does not hold, is
    fatal. *)
Lemma register_scopes_prefix_witness :
  let pin :=
    register (E := Demo.golo) "/proj" "example.com/foo" "pin" "v1"
      (load (E := Demo.golo) "/proj") in
  let dir := Demo.pinned +:+ "/example.com/foo/bar" in
  pin "example.com/foo/bar"
  = ([EvStat dir; EvImportDir dir],
     Done {| ImportPath := "example.com/foo/bar"; Dir := dir; Name := "bar";
             Imports := [] |}) /\
  pin "example.com/other"
  = load (E := Demo.golo) "/proj" "example.com/other" /\
  snd (pin "example.com/foo/baz")
  = Exited ("fatal: stat " +:+ Demo.pinned +:+ "/example.com/foo/baz"
              +:+ ": no such file or directory" +:+ LF).
Proof.
  intros pin dir. subst pin. split; [| split].
  - rewrite (proj2 (proj2 (register_scopes_prefix (E := Demo.golo)
               "/proj" "example.com/foo" "pin" "v1"
               (load (E := Demo.golo) "/proj")
               "example.com/foo/bar") eq_refl)).
    + vm_compute. reflexivity.
    + intros err. vm_compute. discriminate.
  - apply (proj1 (register_scopes_prefix (E := Demo.golo)
             "/proj" "example.com/foo" "pin" "v1"
             (load (E := Demo.golo) "/proj")
             "example.com/other")).
    reflexivity.
  - rewrite (proj1 (proj2 (register_scopes_prefix (E := Demo.golo)
               "/proj" "example.com/foo" "pin" "v1"
               (load (E := Demo.golo) "/proj")
               "example.com/foo/baz") eq_refl)
               ("stat " +:+ Demo.pinned +:+ "/example.com/foo/baz"
                  +:+ ": no such file or directory")).
    + reflexivity.
    + vm_compute. reflexivity.
Defined.

(** C8.  [cacheDir] is a function of the project root and the scope
    string alone, so equal scope strings give equal paths.  With the
    digest of the scope string being the byte [b] followed by [rest],
    the path is the project root, the tool directory, [cache], the two
    hexadecimal digits of [b], and the hexadecimal digits of [rest]:
    38 of them for the 20 bytes of SHA-1. *)
Theorem cacheDir_shape {E : Env} rootdir key b rest :
  sha1_Sum key = b :: rest ->
  length rest = 19 ->
  cacheDir rootdir key
  = filepath_Join [rootdir; tool_dir; "cache"; hex [b]; hex rest] /\
  String.length (hex [b]) = 2 /\
  String.length (hex rest) = 38 /\
  forall key', key' = key -> cacheDir rootdir key' = cacheDir rootdir key.
Proof.
  intros Hsum Hlen.
  split; [unfold cacheDir; by rewrite Hsum |].
  split; [reflexivity |].
  split; [rewrite hex_length, Hlen; reflexivity |].
  by intros key' ->.
Qed.

(** The scope string [a:b=c] of the spec, in golo and in kodos. *)
Lemma cacheDir_shape_witness :
  cacheDir (E := Demo.golo) "/proj" "a:b=c"
  = "/proj/.golo/cache/e8/301c87c44fb8012204fce9cd6dbf12dfd3fdab" /\
  cacheDir (E := Demo.kodos) "/proj" "a:b=c"
  = "/proj/.kang/cache/e8/301c87c44fb8012204fce9cd6dbf12dfd3fdab".
Proof.
  split.
  - destruct (cacheDir_shape (E := Demo.golo) "/proj" "a:b=c"
                xe8 (skipn 1 (SHA1.Sum "a:b=c"))) as [Hdir _].
    + vm_compute. reflexivity.
    + vm_compute. reflexivity.
    + rewrite Hdir. vm_compute. reflexivity.
  - destruct (cacheDir_shape (E := Demo.kodos) "/proj" "a:b=c"
                xe8 (skipn 1 (SHA1.Sum "a:b=c"))) as [Hdir _].
    + vm_compute. reflexivity.
    + vm_compute. reflexivity.
    + rewrite Hdir. vm_compute. reflexivity.
Defined.

(** C9.  A descriptor [importPath] returns is the package
    [build.ImportDir] found in the directory with its [ImportPath]
    replaced by the requested identifier, whatever the source on disk
    made it; so is every descriptor [load] returns and every descriptor
    a registered function loads from its cache directory, and one
    directory loads under any two identifiers. *)
Theorem ModuleID_is_requested {E : Env} :
  (forall path dir t pkg,
      importPath path dir = (t, Done pkg) ->
      ImportPath pkg = path /\
      exists disk,
        build_ImportDir dir = Imported disk /\
        pkg = setImportPath disk path) /\
  (forall rootdir path t pkg,
      load rootdir path = (t, Done pkg) -> ImportPath pkg = path) /\
  (forall rootdir prefix kind arg next path t pkg,
      String.prefix prefix path = true ->
      register rootdir prefix kind arg next path = (t, Done pkg) ->
      ImportPath pkg = path) /\
  (forall dir disk path1 path2,
      build_ImportDir dir = Imported disk ->
      snd (importPath path1 dir) = Done (setImportPath disk path1) /\
      snd (importPath path2 dir) = Done (setImportPath disk path2)).
Proof.
  split; [| split; [| split]].
  - intros path dir t pkg. rewrite importPath_spec. intros [= _ Hpkg].
    split; [by eapply imported_ImportPath |].
    destruct (build_ImportDir dir) as [disk | |]; try discriminate.
    injection Hpkg as <-. by exists disk.
  - intros rootdir path t pkg. apply load_ImportPath.
  - intros rootdir prefix kind arg next path t pkg Hpre.
    rewrite register_spec, Hpre.
    destruct (os_Stat _) as [| [|] err]; intros [= _ Hpkg];
      by eapply imported_ImportPath.
  - intros dir disk path1 path2 Hdisk.
    by rewrite !importPath_spec, Hdisk.
Qed.

(** The vendored [x/a] of the example reports [.] on disk and is [x/a]
    once loaded. *)
Lemma ModuleID_is_requested_witness :
  @build_ImportDir Demo.golo "/proj/vendor/x/a"
  = Demo.on_disk "/proj/vendor/x/a" "a" ["x/c"; "fmt"] /\
  ImportPath {| ImportPath := "x/a"; Dir := "/proj/vendor/x/a"; Name := "a";
                Imports := ["x/c"; "fmt"] |} = "x/a".
Proof.
  split; [reflexivity |].
  apply (proj1 (proj2 (ModuleID_is_requested (E := Demo.golo)))
           "/proj" "x/a"
           [EvLoad "x/a"; EvStat "/go/src/x/a"; EvStat "/proj/vendor/x/a";
            EvImportDir "/proj/vendor/x/a"]).
  reflexivity.
Defined.

(** ** The dependency walk *)

Lemma is_seen_empty q : is_seen ∅ q = false.
Proof. unfold is_seen. by rewrite lookup_empty. Qed.

Lemma is_seen_insert (m : gmap string bool) p q :
  is_seen (<[p := true]> m) q = true <-> q = p \/ is_seen m q = true.
Proof.
  unfold is_seen. destruct (decide (p = q)) as [-> | Hne].
  - rewrite lookup_insert_eq. simpl. tauto.
  - rewrite lookup_insert_ne by done. split; [tauto |].
    intros [-> | Hq]; [done | exact Hq].
Qed.

(** The seen-set the resolver starts from holds the identifiers of the
    initial packages. *)
Lemma is_seen_initial (l : list Package) (m : gmap string bool) q :
  is_seen (fold_left (fun m src => <[ImportPath src := true]> m) l m) q = true
  <-> is_seen m q = true \/ q ∈ map ImportPath l.
Proof.
  revert m. induction l as [| src l IH]; intros m; simpl.
  - split; [tauto |]. intros [Hq | Hq]; [exact Hq |].
    by apply elem_of_nil in Hq.
  - rewrite IH, is_seen_insert, elem_of_cons. tauto.
Qed.

Lemma initial_seen srcs0 q :
  is_seen (seen (initial srcs0)) q = true <-> q ∈ map ImportPath srcs0.
Proof.
  unfold initial. simpl. rewrite is_seen_initial, is_seen_empty.
  split; [by intros [? | ?] | by right].
Qed.

Lemma loads_app t1 t2 : loads (t1 ++ t2) = loads t1 ++ loads t2.
Proof.
  induction t1 as [| [path | dir | dir] t1 IH]; simpl; by rewrite ?IH.
Qed.

Lemma extends_refl {E : Env} rootdir st : extends rootdir st st [].
Proof.
  unfold extends. simpl. rewrite !app_nil_r.
  split; [reflexivity |]. split; [reflexivity |].
  split; [constructor |].
  split.
  { intros q. split; [tauto |].
    intros [Hq | Hq]; [exact Hq | by apply elem_of_nil in Hq]. }
  split; [intros q Hq; by apply elem_of_nil in Hq |].
  split; intros p; [intros i Hp | intros Hp]; by apply elem_of_nil in Hp.
Qed.

Lemma extends_seen {E : Env} rootdir st st' added :
  extends rootdir st st' added ->
  forall q, is_seen (seen st) q = true -> is_seen (seen st') q = true.
Proof. intros (_ & _ & _ & Hseen & _) q Hq. apply Hseen. by left. Qed.

Lemma extends_trans {E : Env} rootdir st1 st2 st3 a1 a2 :
  extends rootdir st1 st2 a1 -> extends rootdir st2 st3 a2 ->
  extends rootdir st1 st3 (a1 ++ a2).
Proof.
  intros H12 H23.
  pose proof (extends_seen _ _ _ _ H12) as Hmono12.
  pose proof (extends_seen _ _ _ _ H23) as Hmono23.
  destruct H12 as (Hsrcs1 & Hloads1 & Hnd1 & Hseen1 & Hnew1 & Hclo1 & Hld1).
  destruct H23 as (Hsrcs2 & Hloads2 & Hnd2 & Hseen2 & Hnew2 & Hclo2 & Hld2).
  unfold extends. rewrite map_app.
  split; [by rewrite Hsrcs2, Hsrcs1, app_assoc |].
  split; [by rewrite Hloads2, Hloads1, app_assoc |].
  split.
  { apply NoDup_app. split; [exact Hnd1 |]. split; [| exact Hnd2].
    intros q Hq1 Hq2. apply Hnew2 in Hq2.
    assert (is_seen (seen st2) q = true) by (apply Hseen1; by right).
    congruence. }
  split.
  { intros q. rewrite Hseen2, Hseen1, elem_of_app. tauto. }
  split.
  { intros q Hq. apply elem_of_app in Hq as [Hq | Hq]; [by apply Hnew1 |].
    apply Hnew2 in Hq.
    destruct (is_seen (seen st1) q) eqn:Hq1; [| reflexivity].
    apply Hmono12 in Hq1. congruence. }
  split.
  { intros p i Hp Hi. apply elem_of_app in Hp as [Hp | Hp].
    - apply Hmono23. by eapply Hclo1.
    - by eapply Hclo2. }
  intros p Hp. apply elem_of_app in Hp as [Hp | Hp]; [by apply Hld1 |].
  by apply Hld2.
Qed.

(** A loop whose body extends the resolver extends it. *)
Lemma for_each_extends {E : Env} {X : Type} rootdir
    (body : X -> Resolver -> option (Run Resolver))
    (Q : X -> Resolver -> Prop) (l : list X) :
  (forall x st st',
      body x st = Some (Done st') ->
      exists added, extends rootdir st st' added /\ Q x st') ->
  (forall x st st' added,
      Q x st -> extends rootdir st st' added -> Q x st') ->
  forall st st',
    for_each body l st = Some (Done st') ->
    exists added,
      extends rootdir st st' added /\ forall x, x ∈ l -> Q x st'.
Proof.
  intros Hbody Hmono.
  induction l as [| x l IH]; intros st st' Hrun; simpl in Hrun.
  - injection Hrun as <-. exists []. split; [apply extends_refl |].
    intros x Hx. by apply elem_of_nil in Hx.
  - destruct (body x st) as [[st1 | msg] |] eqn:Hx; try discriminate.
    destruct (Hbody _ _ _ Hx) as (a1 & Hext1 & Hq1).
    destruct (IH _ _ Hrun) as (a2 & Hext2 & Hq2).
    exists (a1 ++ a2). split; [by eapply extends_trans |].
    intros y Hy. apply elem_of_cons in Hy as [-> | Hy]; [| by apply Hq2].
    by eapply Hmono.
Qed.

(** A walk that returns has extended the resolver and seen its
    identifier. *)
Lemma walk_extends {E : Env} rootdir fuel :
  forall path st st',
    walk fuel rootdir path st = Some (Done st') ->
    exists added,
      extends rootdir st st' added /\ is_seen (seen st') path = true.
Proof.
  induction fuel as [| fuel IH]; intros path st st' Hwalk; [discriminate |].
  simpl in Hwalk.
  destruct (is_seen (seen st) path) eqn:Hseen.
  { injection Hwalk as <-. exists [].
    split; [apply extends_refl | exact Hseen]. }
  destruct (load rootdir path) as [t [pkg | msg]] eqn:Hload; [| discriminate].
  pose proof (load_ImportPath _ _ _ _ Hload) as Hid.
  pose proof (load_loads rootdir path) as Ht. rewrite Hload in Ht. simpl in Ht.
  set (st1 := MkResolver (<[path := true]> (seen st)) (srcs st ++ [pkg])
                         (trace st ++ t)) in Hwalk.
  destruct (for_each_extends rootdir (walk fuel rootdir)
              (fun i st => is_seen (seen st) i = true) (Imports pkg))
    with (st := st1) (st' := st') as (a2 & Hext & Himports).
  { exact IH. }
  { intros i s s' added Hi Hs. by eapply extends_seen. }
  { exact Hwalk. }
  pose proof (extends_seen _ _ _ _ Hext) as Hmono.
  destruct Hext as (Hsrcs & Hloads & Hnd & Hseen' & Hnew & Hclo & Hld).
  assert (Hpath1 : is_seen (seen st1) path = true)
    by (apply is_seen_insert; by left).
  exists (pkg :: a2). split; [| by apply Hmono].
  unfold extends. simpl map. rewrite Hid.
  split; [by rewrite Hsrcs; simpl; rewrite <- app_assoc |].
  split.
  { rewrite Hloads. simpl. by rewrite loads_app, Ht, <- app_assoc. }
  split.
  { constructor; [| exact Hnd]. intros Hin.
    apply Hnew in Hin. congruence. }
  split.
  { intros q. rewrite Hseen', elem_of_cons. simpl.
    rewrite is_seen_insert. tauto. }
  split.
  { intros q Hq. apply elem_of_cons in Hq as [-> | Hq]; [exact Hseen |].
    apply Hnew in Hq. simpl in Hq.
    destruct (is_seen (seen st) q) eqn:Hq0; [| reflexivity].
    assert (is_seen (<[path := true]> (seen st)) q = true)
      by (apply is_seen_insert; by right).
    congruence. }
  split.
  { intros p i Hp Hi. apply elem_of_cons in Hp as [-> | Hp].
    - by apply Himports.
    - by eapply Hclo. }
  intros p Hp. apply elem_of_cons in Hp as [-> | Hp]; [| by apply Hld].
  by rewrite Hid, Hload.
Qed.

Lemma resolve_extends {E : Env} fuel rootdir srcs0 st :
  resolve fuel rootdir srcs0 = Some (Done st) ->
  exists added,
    extends rootdir (initial srcs0) st added /\
    forall src i, src ∈ srcs0 -> i ∈ Imports src ->
                  is_seen (seen st) i = true.
Proof.
  unfold resolve. intros Hrun.
  destruct (for_each_extends rootdir
              (fun src => for_each (walk fuel rootdir) (Imports src))
              (fun src st => forall i, i ∈ Imports src ->
                                       is_seen (seen st) i = true)
              srcs0)
    with (3 := Hrun) as (added & Hext & Himports).
  - intros src s s' Hsrc.
    eapply (for_each_extends rootdir (walk fuel rootdir)
              (fun i st => is_seen (seen st) i = true)); [| | exact Hsrc].
    + apply walk_extends.
    + intros i s1 s2 a Hi Hs. by eapply extends_seen.
  - intros src s s' a Hsrc Hs i Hi. eapply extends_seen; [exact Hs |].
    by apply Hsrc.
  - exists added. split; [exact Hext |].
    intros src i Hsrc Hi. by apply (Himports src).
Qed.

Lemma loadDependencies_resolve {E : Env} fuel rootdir srcs0 :
  loadDependencies fuel rootdir srcs0 =
  match resolve fuel rootdir srcs0 with
  | Some (Done st) => Some (Done (srcs st))
  | Some (Exited msg) => Some (Exited msg)
  | None => None
  end.
Proof. reflexivity. Qed.

(** Every import of a package of the output that is not an initial
    package is an identifier [load] returns a package for. *)
Lemma resolve_imports_loaded {E : Env} fuel rootdir srcs0 out p path :
  loadDependencies fuel rootdir srcs0 = Some (Done out) ->
  p ∈ out -> path ∈ Imports p ->
  path ∉ map ImportPath srcs0 ->
  exists q, snd (load rootdir path) = Done q.
Proof.
  rewrite loadDependencies_resolve.
  destruct (resolve fuel rootdir srcs0) as [[st | msg] |] eqn:Hrun;
    try discriminate.
  intros [= <-] Hp Hpath Hnew.
  destruct (resolve_extends _ _ _ _ Hrun)
    as (added & (Hsrcs & _ & _ & Hseen & _ & Hclo & Hld) & Hinit).
  simpl in Hsrcs.
  assert (Hs : is_seen (seen st) path = true).
  { rewrite Hsrcs in Hp. apply elem_of_app in Hp as [Hp | Hp];
      [by eapply Hinit | by eapply Hclo]. }
  apply Hseen in Hs as [Hs | Hs]; [by apply initial_seen in Hs |].
  apply list_elem_of_fmap in Hs as (q & -> & Hq).
  exists q. by apply Hld.
Qed.

(** C1.  [load] first calls [os.Stat] on the standard library path of
    the identifier.  When that path exists ([os.Stat] returns no error)
    it is the only one probed and the one loaded, whatever the vendor
    directory holds, so an identifier present under both roots resolves
    to the standard library root.  When it does not, [vendor/<moduleID>]
    under the project root is probed next and loaded when it exists.
    When neither exists the process exits with a message that holds the
    identifier, and so does a walk that reaches the identifier; and no
    resolution returns a package set in which a package imports such an
    identifier, unless it names one of the initial packages. *)
Theorem load_search_order {E : Env} rootdir path :
  let std := filepath_Join [GOROOT; "src"; path] in
  let vend := filepath_Join [rootdir; "vendor"; path] in
  (exists rest, probes (fst (load rootdir path)) = std :: rest) /\
  (os_Stat std = StatOk ->
   probes (fst (load rootdir path)) = [std] /\
   load rootdir path
   = ([EvLoad path; EvStat std; EvImportDir std],
      imported path (build_ImportDir std))) /\
  (os_Stat std <> StatOk ->
   probes (fst (load rootdir path)) = [std; vend]) /\
  (os_Stat std <> StatOk -> os_Stat vend = StatOk ->
   load rootdir path
   = ([EvLoad path; EvStat std; EvStat vend; EvImportDir vend],
      imported path (build_ImportDir vend))) /\
  (forall b1 e1 b2 e2,
      os_Stat std = StatErr b1 e1 -> os_Stat vend = StatErr b2 e2 ->
      let msg :=
        "fatal: cannot resolve path" +:+ path +:+ " " +:+ e2 +:+ LF in
      snd (load rootdir path) = Exited msg /\
      (forall fuel st,
          is_seen (seen st) path = false ->
          walk (S fuel) rootdir path st = Some (Exited msg)) /\
      (forall fuel srcs0 out p,
          loadDependencies fuel rootdir srcs0 = Some (Done out) ->
          p ∈ out -> path ∈ Imports p ->
          path ∈ map ImportPath srcs0)).
Proof.
  intros std vend.
  pose proof (load_spec rootdir path) as Hload. simpl in Hload.
  fold std vend in Hload.
  split; [| split; [| split; [| split]]].
  - rewrite Hload.
    destruct (os_Stat std); [| destruct (os_Stat vend)]; by eexists.
  - intros Hstd. by rewrite Hload, Hstd.
  - intros Hstd. rewrite Hload.
    destruct (os_Stat std); [done |]. by destruct (os_Stat vend).
  - intros Hstd Hvend. rewrite Hload, Hvend.
    by destruct (os_Stat std).
  - intros b1 e1 b2 e2 Hstd Hvend msg. split; [| split].
    + by rewrite Hload, Hstd, Hvend.
    + intros fuel st Hseen. simpl.
      by rewrite Hseen, Hload, Hstd, Hvend.
    + intros fuel srcs0 out p Hrun Hp Hpath.
      destruct (decide (path ∈ map ImportPath srcs0)) as [Hin | Hout];
        [exact Hin |].
      destruct (resolve_imports_loaded _ _ _ _ _ _ Hrun Hp Hpath Hout)
        as [q Hq].
      rewrite Hload, Hstd, Hvend in Hq. discriminate Hq.
Qed.

(** In the example [x/both] is in both roots and comes from the
    standard library root, [x/a] is vendored only, and [x/missing] is
    in neither. *)
Lemma load_search_order_witness :
  load (E := Demo.golo) "/proj" "x/both"
  = ([EvLoad "x/both"; EvStat "/go/src/x/both"; EvImportDir "/go/src/x/both"],
     Done {| ImportPath := "x/both"; Dir := "/go/src/x/both"; Name := "both";
             Imports := [] |}) /\
  load (E := Demo.golo) "/proj" "x/a"
  = ([EvLoad "x/a"; EvStat "/go/src/x/a"; EvStat "/proj/vendor/x/a";
      EvImportDir "/proj/vendor/x/a"],
     Done {| ImportPath := "x/a"; Dir := "/proj/vendor/x/a"; Name := "a";
             Imports := ["x/c"; "fmt"] |}) /\
  snd (load (E := Demo.golo) "/proj" "x/missing")
  = Exited ("fatal: cannot resolve path" +:+ "x/missing" +:+ " "
              +:+ "stat /proj/vendor/x/missing: no such file or directory"
              +:+ LF).
Proof.
  split; [| split].
  - apply (proj2 (proj1 (proj2
             (load_search_order (E := Demo.golo) "/proj" "x/both"))
             eq_refl)).
  - apply (proj1 (proj2 (proj2 (proj2
             (load_search_order (E := Demo.golo) "/proj" "x/a"))))).
    + discriminate.
    + reflexivity.
  - apply (proj1 (proj2 (proj2 (proj2 (proj2
             (load_search_order (E := Demo.golo) "/proj" "x/missing"))))
             true "stat /go/src/x/missing: no such file or directory"
             true "stat /proj/vendor/x/missing: no such file or directory"
             eq_refl eq_refl)).
Defined.

Lemma count_occ_once (l : list string) x :
  NoDup l -> x ∈ l -> count_occ string_dec l x = 1.
Proof.
  intros Hnd Hx. apply NoDup_ListNoDup in Hnd.
  rewrite (List.NoDup_count_occ' string_dec) in Hnd.
  apply Hnd. by apply list_elem_of_In.
Qed.

Lemma count_occ_none (l : list string) x :
  x ∉ l -> count_occ string_dec l x = 0.
Proof. rewrite list_elem_of_In. apply count_occ_not_In. Qed.

(** C3.  When the resolution returns, the output is the initial set
    followed by the descriptors it loaded, one for each call of [load]
    and in the order of the calls; no identifier was loaded twice and
    none of the initial set was loaded at all, the seen-set having
    started from their identifiers, and a walk on an identifier already
    seen leaving the resolver as it is; the seen-set is the set of
    identifiers of the output.  So an identifier [x] that two packages
    of the output import is in the output; it was loaded exactly once,
    unless it is of the initial set, which the scanner had loaded; and
    it is exactly once in the output when the initial set names no
    identifier twice. *)
Theorem resolve_loads_once {E : Env} fuel rootdir srcs0 st :
  resolve fuel rootdir srcs0 = Some (Done st) ->
  exists added,
    (forall q, is_seen (seen (initial srcs0)) q = true
               <-> q ∈ map ImportPath srcs0) /\
    (forall path s n,
        is_seen (seen s) path = true ->
        walk (S n) rootdir path s = Some (Done s)) /\
    loadDependencies fuel rootdir srcs0 = Some (Done (srcs0 ++ added)) /\
    srcs st = srcs0 ++ added /\
    loads (trace st) = map ImportPath added /\
    (forall p, p ∈ added -> snd (load rootdir (ImportPath p)) = Done p) /\
    NoDup (loads (trace st)) /\
    (forall q, q ∈ map ImportPath srcs0 -> q ∉ loads (trace st)) /\
    (forall q, is_seen (seen st) q = true <-> q ∈ map ImportPath (srcs st)) /\
    (forall a b x,
        a ∈ srcs st -> b ∈ srcs st -> x ∈ Imports a -> x ∈ Imports b ->
        x ∈ map ImportPath (srcs st) /\
        (x ∉ map ImportPath srcs0 ->
         count_occ string_dec (loads (trace st)) x = 1) /\
        (x ∈ map ImportPath srcs0 ->
         count_occ string_dec (loads (trace st)) x = 0) /\
        (NoDup (map ImportPath srcs0) ->
         count_occ string_dec (map ImportPath (srcs st)) x = 1)).
Proof.
  intros Hrun.
  destruct (resolve_extends _ _ _ _ Hrun)
    as (added & (Hsrcs & Hloads & Hnd & Hseen & Hnew & Hclo & Hld) & Hinit).
  simpl in Hsrcs, Hloads.
  pose proof (initial_seen srcs0) as Hseen0.
  assert (Hfresh : forall q, q ∈ map ImportPath srcs0 ->
                             q ∉ map ImportPath added).
  { intros q Hq Hq'. apply Hnew in Hq'. apply Hseen0 in Hq. congruence. }
  assert (Hids : forall q, is_seen (seen st) q = true
                           <-> q ∈ map ImportPath (srcs st)).
  { intros q. rewrite Hseen, Hseen0, Hsrcs, map_app, elem_of_app. tauto. }
  exists added.
  split; [exact Hseen0 |].
  split; [intros path s n Hs; simpl; by rewrite Hs |].
  split; [by rewrite loadDependencies_resolve, Hrun, Hsrcs |].
  split; [exact Hsrcs |]. split; [exact Hloads |].
  split; [exact Hld |].
  split; [by rewrite Hloads |].
  split; [by rewrite Hloads |].
  split; [exact Hids |].
  intros a b x Ha _ Hxa _.
  assert (Hx : x ∈ map ImportPath (srcs st)).
  { apply Hids. rewrite Hsrcs in Ha.
    apply elem_of_app in Ha as [Ha | Ha]; [by eapply Hinit | by eapply Hclo]. }
  split; [exact Hx |].
  rewrite Hloads.
  split; [| split].
  - intros Hx0. apply count_occ_once; [exact Hnd |].
    rewrite Hsrcs, map_app, elem_of_app in Hx. by destruct Hx.
  - intros Hx0. apply count_occ_none. by apply Hfresh.
  - intros Hnd0. apply count_occ_once; [| exact Hx].
    rewrite Hsrcs, map_app. apply NoDup_app.
    split; [exact Hnd0 |]. split; [exact Hfresh | exact Hnd].
Qed.

(** The diamond of the example: [x/a] and [x/b] both import [x/c],
    which is loaded once, after [x/a] and before [x/b]. *)
Lemma resolve_loads_once_witness :
  exists st,
    resolve (E := Demo.golo) 5 "/proj" [Demo.app] = Some (Done st) /\
    map ImportPath (srcs st)
    = ["example.com/app"; "fmt"; "x/a"; "x/c"; "x/b"] /\
    loads (trace st) = ["fmt"; "x/a"; "x/c"; "x/b"] /\
    count_occ string_dec (loads (trace st)) "x/c" = 1.
Proof.
  destruct (resolve (E := Demo.golo) 5 "/proj" [Demo.app])
    as [[st | msg] |] eqn:Hrun;
    [| vm_compute in Hrun; discriminate Hrun
     | vm_compute in Hrun; discriminate Hrun].
  exists st. split; [reflexivity |].
  destruct (resolve_loads_once (E := Demo.golo) 5 "/proj" [Demo.app]
              st Hrun)
    as (added & _ & _ & _ & _ & _ & _ & _ & _ & _ & Hdiamond).
  assert (Hst : Some (Done st)
                = resolve (E := Demo.golo) 5 "/proj" [Demo.app])
    by (symmetry; exact Hrun).
  vm_compute in Hst. injection Hst as ->.
  split; [reflexivity |]. split; [reflexivity |].
  refine (proj1 (proj2 (Hdiamond
           {| ImportPath := "x/a"; Dir := "/proj/vendor/x/a"; Name := "a";
              Imports := ["x/c"; "fmt"] |}
           {| ImportPath := "x/b"; Dir := "/proj/vendor/x/b"; Name := "b";
              Imports := ["x/c"] |}
           "x/c" _ _ _ _)) _).
  - simpl. do 2 apply list_elem_of_further. apply list_elem_of_here.
  - simpl. do 4 apply list_elem_of_further. apply list_elem_of_here.
  - apply list_elem_of_here.
  - apply list_elem_of_here.
  - simpl. intros Hin. apply list_elem_of_singleton in Hin. discriminate Hin.
Defined.

(** ** Termination of the walk *)

Lemma filter_length_le {A : Type} (f g : A -> bool) (l : list A) :
  (forall x, g x = true -> f x = true) ->
  length (List.filter g l) <= length (List.filter f l).
Proof.
  intros Hgf. induction l as [| x l IH]; simpl; [lia |].
  destruct (g x) eqn:Hg.
  - rewrite (Hgf x Hg). simpl. lia.
  - destruct (f x); simpl; lia.
Qed.

Lemma filter_length_lt {A : Type} (f g : A -> bool) (l : list A) x0 :
  (forall x, g x = true -> f x = true) ->
  x0 ∈ l -> f x0 = true -> g x0 = false ->
  length (List.filter g l) < length (List.filter f l).
Proof.
  intros Hgf Hin Hf Hg. induction l as [| x l IH]; simpl.
  - by apply elem_of_nil in Hin.
  - apply elem_of_cons in Hin as [<- | Hin].
    + rewrite Hf, Hg. simpl.
      pose proof (filter_length_le f g l Hgf). lia.
    + specialize (IH Hin). destruct (g x) eqn:Hgx.
      * rewrite (Hgf x Hgx). simpl. lia.
      * destruct (f x); simpl; lia.
Qed.

(** Marking an unseen member of [U] leaves fewer unseen members. *)
Lemma unseen_insert_lt U (m : gmap string bool) path :
  path ∈ U -> is_seen m path = false ->
  length (unseen U (<[path := true]> m)) < length (unseen U m).
Proof.
  intros Hin Hm. apply filter_length_lt with (x0 := path); [| exact Hin | |].
  - intros q Hq. destruct (is_seen m q) eqn:Hmq; [| reflexivity].
    assert (Hq' : is_seen (<[path := true]> m) q = true)
      by (apply is_seen_insert; by right).
    by rewrite Hq' in Hq.
  - by rewrite Hm.
  - assert (Hp : is_seen (<[path := true]> m) path = true)
      by (apply is_seen_insert; by left).
    by rewrite Hp.
Qed.

(** A loop returns when its body does and keeps the invariant. *)
Lemma for_each_total {X : Type}
    (body : X -> Resolver -> option (Run Resolver))
    (I : Resolver -> Prop) (l : list X) :
  (forall x st, x ∈ l -> I st ->
                exists r, body x st = Some r /\
                          forall st', r = Done st' -> I st') ->
  forall st, I st ->
             exists r, for_each body l st = Some r /\
                       forall st', r = Done st' -> I st'.
Proof.
  induction l as [| x l IH]; intros Hbody st Hst; simpl.
  - exists (Done st). split; [reflexivity |]. by intros st' [= <-].
  - destruct (Hbody x st) as (r & Hr & Hinv);
      [apply list_elem_of_here | exact Hst |].
    rewrite Hr. destruct r as [st1 | msg].
    + apply IH; [| by apply Hinv].
      intros y s Hy. apply Hbody. by apply list_elem_of_further.
    + exists (Exited msg). split; [reflexivity |]. discriminate.
Qed.

Lemma walk_total {E : Env} rootdir U :
  import_closed rootdir U ->
  forall fuel path st,
    path ∈ U ->
    length (unseen U (seen st)) < fuel ->
    exists r,
      walk fuel rootdir path st = Some r /\
      forall st',
        r = Done st' ->
        length (unseen U (seen st')) <= length (unseen U (seen st)).
Proof.
  intros Hclosed.
  induction fuel as [| fuel IH]; intros path st Hpath Hfuel; [lia |].
  simpl.
  destruct (is_seen (seen st) path) eqn:Hseen.
  { exists (Done st). split; [reflexivity |]. by intros st' [= <-]. }
  destruct (load rootdir path) as [t [pkg | msg]] eqn:Hload.
  2: { exists (Exited msg). split; [reflexivity | discriminate]. }
  set (st1 := MkResolver (<[path := true]> (seen st)) (srcs st ++ [pkg])
                         (trace st ++ t)).
  assert (Hlt : length (unseen U (seen st1)) < length (unseen U (seen st)))
    by (by apply unseen_insert_lt).
  assert (Himports : Forall (fun i => i ∈ U) (Imports pkg)).
  { unfold import_closed in Hclosed. rewrite Forall_forall in Hclosed.
    specialize (Hclosed path Hpath). by rewrite Hload in Hclosed. }
  rewrite Forall_forall in Himports.
  destruct (for_each_total (walk fuel rootdir)
              (fun s => length (unseen U (seen s))
                        <= length (unseen U (seen st1)))
              (Imports pkg)) with (st := st1) as (r & Hr & Hinv).
  - intros i s Hi Hs.
    destruct (IH i s) as (r & Hr & Hle); [by apply Himports | lia |].
    exists r. split; [exact Hr |]. intros s' ->.
    specialize (Hle s' eq_refl). lia.
  - lia.
  - exists r. split; [exact Hr |]. intros st' ->.
    specialize (Hinv st' eq_refl). lia.
Qed.

Lemma resolve_total {E : Env} rootdir U srcs0 fuel :
  import_closed rootdir U ->
  (forall src i, src ∈ srcs0 -> i ∈ Imports src -> i ∈ U) ->
  length U < fuel ->
  exists r, resolve fuel rootdir srcs0 = Some r.
Proof.
  intros Hclosed Hinit Hfuel. unfold resolve.
  set (I := fun s : Resolver => length (unseen U (seen s)) < fuel).
  destruct (for_each_total
              (fun src => for_each (walk fuel rootdir) (Imports src))
              I srcs0)
    with (st := initial srcs0) as (r & Hr & _).
  - intros src s Hsrc Hs.
    apply (for_each_total (walk fuel rootdir) I (Imports src)); [| exact Hs].
    intros i s1 Hi Hs1.
    destruct (walk_total rootdir U Hclosed fuel i s1) as (r & Hr & Hle);
      [by eapply Hinit | exact Hs1 |].
    exists r. split; [exact Hr |]. intros s' ->.
    specialize (Hle s' eq_refl). unfold I in *. lia.
  - unfold I, unseen.
    pose proof (List.filter_length_le
                  (fun p => negb (is_seen (seen (initial srcs0)) p)) U).
    lia.
  - by exists r.
Qed.

(** More fuel does not change what a walk that returned returns. *)
Lemma for_each_fuel {X S : Type} (body body' : X -> S -> option (Run S)) l :
  (forall x s r, body x s = Some r -> body' x s = Some r) ->
  forall s r, for_each body l s = Some r -> for_each body' l s = Some r.
Proof.
  intros Hbody. induction l as [| x l IH]; intros s r; simpl; [done |].
  destruct (body x s) as [[s1 | msg] |] eqn:Hx; [| | discriminate].
  - rewrite (Hbody _ _ _ Hx). apply IH.
  - by rewrite (Hbody _ _ _ Hx).
Qed.

Lemma walk_fuel {E : Env} rootdir fuel :
  forall fuel' path st r,
    fuel <= fuel' ->
    walk fuel rootdir path st = Some r ->
    walk fuel' rootdir path st = Some r.
Proof.
  induction fuel as [| fuel IH]; intros fuel' path st r Hle; [discriminate |].
  destruct fuel' as [| fuel']; [lia |].
  simpl. destruct (is_seen (seen st) path); [done |].
  destruct (load rootdir path) as [t [pkg | msg]]; [| done].
  apply for_each_fuel. intros i s r'. apply IH. lia.
Qed.

Lemma resolve_fuel {E : Env} rootdir srcs0 fuel fuel' r :
  fuel <= fuel' ->
  resolve fuel rootdir srcs0 = Some r ->
  resolve fuel' rootdir srcs0 = Some r.
Proof.
  intros Hle. unfold resolve. apply for_each_fuel.
  intros src s r'. apply for_each_fuel.
  intros i s1 r1. by apply walk_fuel.
Qed.

(** C10.  Let [U] be a finite list of identifiers that holds the
    imports of the initial packages and the imports of every package
    loaded for one of its members; the graph may have cycles.  Then
    the resolution returns, with a result or a fatal exit, as soon as
    the recursion may be deeper than [U] is long, and more fuel gives
    the same outcome.  A walk on an identifier already seen returns at
    once; a walk on another marks it seen before it loads it and
    walks its imports, and that leaves strictly fewer unseen members of
    [U]; so a walk returns whenever its fuel exceeds their number. *)
Theorem walk_terminates {E : Env} rootdir U srcs0 fuel :
  import_closed rootdir U ->
  (forall src i, src ∈ srcs0 -> i ∈ Imports src -> i ∈ U) ->
  length U < fuel ->
  (exists r, forall fuel', fuel <= fuel' ->
                           loadDependencies fuel' rootdir srcs0 = Some r) /\
  (forall path st,
      path ∈ U -> length (unseen U (seen st)) < fuel ->
      exists r, walk fuel rootdir path st = Some r) /\
  (forall path st n,
      is_seen (seen st) path = true ->
      walk (S n) rootdir path st = Some (Done st)) /\
  (forall path st n,
      is_seen (seen st) path = false ->
      walk (S n) rootdir path st =
      match load rootdir path with
      | (t, Done pkg) =>
          for_each (walk n rootdir) (Imports pkg)
            (MkResolver (<[path := true]> (seen st)) (srcs st ++ [pkg])
                        (trace st ++ t))
      | (_, Exited msg) => Some (Exited msg)
      end) /\
  (forall path m,
      path ∈ U -> is_seen m path = false ->
      length (unseen U (<[path := true]> m)) < length (unseen U m)).
Proof.
  intros Hclosed Hinit Hfuel.
  split; [| split; [| split; [| split]]].
  - destruct (resolve_total rootdir U srcs0 fuel Hclosed Hinit Hfuel)
      as [r Hr].
    exists (match r with
            | Done st => Done (srcs st)
            | Exited msg => Exited msg
            end).
    intros fuel' Hle.
    rewrite loadDependencies_resolve, (resolve_fuel _ _ _ _ _ Hle Hr).
    by destruct r.
  - intros path st Hpath Hlt.
    destruct (walk_total rootdir U Hclosed fuel path st Hpath Hlt)
      as (r & Hr & _).
    by exists r.
  - intros path st n Hseen. simpl. by rewrite Hseen.
  - intros path st n Hseen. simpl. rewrite Hseen.
    by destruct (load rootdir path) as [t [pkg | msg]].
  - intros path m. apply unseen_insert_lt.
Qed.

(** The import graph of the example has the cycle [x/a], [x/c], [x/a]. *)
Lemma walk_terminates_witness :
  exists r, loadDependencies (E := Demo.golo) 5 "/proj" [Demo.app] = Some r.
Proof.
  destruct (walk_terminates (E := Demo.golo) "/proj" Demo.universe
              [Demo.app] 5) as [[r Hr] _].
  - unfold import_closed, Demo.universe.
    repeat (apply Forall_cons; split; [vm_compute; repeat constructor |]).
    apply Forall_nil. constructor.
  - intros src i Hsrc Hi.
    apply list_elem_of_singleton in Hsrc. subst src.
    simpl in Hi. unfold Demo.universe.
    repeat (apply elem_of_cons in Hi as [-> | Hi];
            [repeat constructor |]).
    by apply elem_of_nil in Hi.
  - simpl. lia.
  - exists r. apply Hr. lia.
Defined.

(** * Further properties *)

(** ** The scanner *)

(** X1.  The descriptors of a scan that returns are exactly the
    sources of the buildable directories reached through entries that
    are not ignored, each under the identifier its entries spell. *)
Theorem scan_lists_buildable {E : Env} prefix dir t srcs :
  loadSources prefix dir t = Done srcs ->
  forall p,
    p ∈ srcs <->
    exists names t' pkg,
      visible t names t' /\
      source_of t' (directory dir names) = Imported pkg /\
      p = setImportPath pkg (moduleID prefix names).
Proof.
  intros Hscan p. split.
  - by apply loadSources_origin.
  - intros (names & t' & pkg & Hreach & Hsrc & ->).
    destruct (loadSources_segment _ _ _ Hreach _ _ _ Hscan)
      as (srcs' & l1 & l2 & Hscan' & ->).
    destruct (loadSources_self_last _ _ _ _ _ Hscan' Hsrc) as (children & ->).
    rewrite !elem_of_app, list_elem_of_singleton. tauto.
Qed.

Lemma scan_lists_buildable_witness :
  exists srcs,
    loadSources (E := Demo.golo) "example.com/app" "/proj" Demo.tree
    = Done srcs /\
    {| ImportPath := "example.com/app/a/b"; Dir := "/proj/a/b"; Name := "b";
       Imports := ["fmt"] |} ∈ srcs.
Proof.
  destruct (loadSources (E := Demo.golo) "example.com/app" "/proj"
              Demo.tree) as [srcs | msg] eqn:Hscan;
    [| vm_compute in Hscan; discriminate Hscan].
  exists srcs. split; [reflexivity |].
  apply (scan_lists_buildable (E := Demo.golo) _ _ _ _ Hscan).
  exists ["a"; "b"], (Demo.leaf "b" ["fmt"]),
    {| ImportPath := "."; Dir := "/proj/a/b"; Name := "b";
       Imports := ["fmt"] |}.
  split; [| split; reflexivity].
  eapply visible_step; [| reflexivity |].
  { unfold Demo.tree. do 6 apply list_elem_of_further.
    apply list_elem_of_here. }
  eapply visible_step; [| reflexivity | apply visible_here].
  apply list_elem_of_further, list_elem_of_here.
Defined.

Lemma rangeFiles_exit_origin v files acc msg :
  rangeFiles v files acc = Exited msg ->
  exists name sub,
    (name, Some sub) ∈ files /\ ignored name = false /\
    v name sub = Exited msg.
Proof.
  revert acc.
  induction files as [| [name fi] files IH]; intros acc Hexit; simpl in Hexit.
  - discriminate.
  - assert (Hrest : forall acc',
               rangeFiles v files acc' = Exited msg ->
               exists name0 sub,
                 (name0, Some sub) ∈ (name, fi) :: files /\
                 ignored name0 = false /\ v name0 sub = Exited msg).
    { intros acc' Hexit'.
      destruct (IH _ Hexit') as (n & sb & Hin & Hvis & Hv).
      exists n, sb. split; [by apply list_elem_of_further | done]. }
    destruct (ignored name) eqn:Hign; [by eapply Hrest |].
    destruct fi as [sub |]; [| by eapply Hrest].
    destruct (v name sub) as [more | msg'] eqn:Hv; [by eapply Hrest |].
    injection Hexit as <-.
    exists name, sub. split; [apply list_elem_of_here | done].
Qed.

Lemma loadSources_exit_origin {E : Env} t :
  forall prefix dir msg,
    loadSources prefix dir t = Exited msg ->
    exists names t' err,
      visible t names t' /\
      failure (directory dir names) t' = Some err /\
      msg = "fatal: " +:+ err +:+ LF.
Proof.
  induction t as [err source | files source IH] using DirTree_nested_ind;
    intros prefix dir msg Hexit.
  - injection Hexit as <-.
    exists [], (MkDir (inl err) source), err.
    split; [constructor |]. split; reflexivity.
  - rewrite loadSources_unfold in Hexit.
    destruct (rangeFiles (visit prefix dir) files []) as [out | msg'] eqn:Hout.
    + destruct (source dir) as [pkg | err | err] eqn:Hsrc; try discriminate.
      injection Hexit as <-.
      exists [], (MkDir (inr files) source), err.
      split; [constructor |]. simpl. rewrite Hsrc. split; reflexivity.
    + injection Hexit as ->.
      destruct (rangeFiles_exit_origin _ _ _ _ Hout)
        as (name & sub & Hin & Hvis & Hv).
      rewrite Forall_forall in IH.
      destruct (IH _ Hin sub eq_refl _ _ _ Hv)
        as (names & t' & err & Hreach & Hfail & ->).
      exists (name :: names), t', err.
      split; [by econstructor |]. done.
Qed.

Lemma failure_fails dir t err : failure dir t = Some err -> fails dir t.
Proof.
  destruct t as [[e | files] source]; simpl; [done |].
  by destruct (source dir).
Qed.

(** X2.  A scan exits exactly when one of the directories it visits
    cannot be listed or has source that [build.ImportDir] rejects for
    another reason than the absence of Go source; what it writes is
    then [fatal: ], the error of such a directory and a newline. *)
Theorem scan_exits_on_failure {E : Env} prefix dir t :
  (forall msg,
      loadSources prefix dir t = Exited msg ->
      exists names t' err,
        visible t names t' /\
        failure (directory dir names) t' = Some err /\
        msg = "fatal: " +:+ err +:+ LF) /\
  (forall names t' err,
      visible t names t' ->
      failure (directory dir names) t' = Some err ->
      exists msg, loadSources prefix dir t = Exited msg).
Proof.
  split.
  - intros msg. apply loadSources_exit_origin.
  - intros names t' err Hreach Hfail.
    eapply loadSources_abort; [exact Hreach |]. by eapply failure_fails.
Qed.

Lemma scan_exits_on_failure_witness :
  loadSources (E := Demo.golo) "example.com/app" "/proj" Demo.broken
  = Exited ("fatal: " +:+ "/proj/bad/bad.go:1:1: expected 'package'" +:+ LF)
  /\ exists names t' err,
       visible Demo.broken names t' /\
       failure (directory (E := Demo.golo) "/proj" names) t' = Some err.
Proof.
  split; [reflexivity |].
  destruct (proj1 (scan_exits_on_failure (E := Demo.golo)
                     "example.com/app" "/proj" Demo.broken)
              ("fatal: " +:+ "/proj/bad/bad.go:1:1: expected 'package'" +:+ LF)
              eq_refl)
    as (names & t' & err & Hreach & Hfail & _).
  by exists names, t', err.
Defined.

(** The loop over a listing in two parts is the loop over the first
    part, then the loop over the second. *)
Lemma rangeFiles_app v files files' acc :
  rangeFiles v (files ++ files') acc =
  match rangeFiles v files acc with
  | Done out => rangeFiles v files' out
  | Exited msg => Exited msg
  end.
Proof.
  revert acc.
  induction files as [| [name fi] files IH]; intros acc; simpl; [reflexivity |].
  destruct (ignored name); [apply IH |].
  destruct fi as [sub |]; [| apply IH].
  destruct (v name sub); [apply IH | reflexivity].
Qed.

(** X3.  Sibling directories are scanned in the order [Readdir] lists
    them: the descriptors of the subtree listed first all come before
    those of the subtree listed later. *)
Theorem siblings_in_listing_order {E : Env} prefix dir
    before name1 sub1 between name2 sub2 after source srcs :
  loadSources prefix dir
    (MkDir (inr (before ++ (name1, Some sub1)
                          :: between ++ (name2, Some sub2) :: after))
           source) = Done srcs ->
  ignored name1 = false ->
  ignored name2 = false ->
  exists srcs1 srcs2 l1 l2 l3,
    visit prefix dir name1 sub1 = Done srcs1 /\
    visit prefix dir name2 sub2 = Done srcs2 /\
    srcs = l1 ++ srcs1 ++ l2 ++ srcs2 ++ l3.
Proof.
  intros Hscan Hvis1 Hvis2.
  rewrite loadSources_unfold in Hscan.
  destruct (rangeFiles _ _ []) as [out | msg] eqn:Hout; [| discriminate].
  rewrite rangeFiles_app in Hout.
  destruct (rangeFiles _ before []) as [o1 |]; [| discriminate].
  simpl in Hout. rewrite Hvis1 in Hout.
  destruct (visit prefix dir name1 sub1) as [srcs1 |]; [| discriminate].
  rewrite rangeFiles_app, rangeFiles_acc in Hout.
  destruct (rangeFiles _ between []) as [o2 |]; [| discriminate].
  simpl in Hout. rewrite Hvis2 in Hout.
  destruct (visit prefix dir name2 sub2) as [srcs2 |]; [| discriminate].
  rewrite rangeFiles_acc in Hout.
  destruct (rangeFiles _ after []) as [o3 |]; [| discriminate].
  injection Hout as <-.
  exists srcs1, srcs2, o1, o2.
  destruct (source dir) as [pkg | err | err]; [| | discriminate].
  - injection Hscan as <-. exists (o3 ++ [setImportPath pkg prefix]).
    split; [reflexivity |]. split; [reflexivity |].
    by rewrite <- !app_assoc.
  - injection Hscan as <-. exists o3.
    split; [reflexivity |]. split; [reflexivity |].
    by rewrite <- !app_assoc.
Qed.

Lemma siblings_in_listing_order_witness :
  exists l1 l2 l3,
    loadSources (E := Demo.golo) "example.com/app" "/proj" DemoRepo.two
    = Done (l1 ++ [ {| ImportPath := "example.com/app/a/b";
                       Dir := "/proj/a/b"; Name := "b";
                       Imports := ["fmt"] |};
                    {| ImportPath := "example.com/app/a"; Dir := "/proj/a";
                       Name := "a"; Imports := ["example.com/app/a/b"] |} ]
               ++ l2 ++ [ {| ImportPath := "example.com/app/z";
                             Dir := "/proj/z"; Name := "z";
                             Imports := ["x/a"] |} ] ++ l3).
Proof.
  destruct (loadSources (E := Demo.golo) "example.com/app" "/proj"
              DemoRepo.two) as [srcs | msg] eqn:Hscan;
    [| vm_compute in Hscan; discriminate Hscan].
  destruct (siblings_in_listing_order (E := Demo.golo)
              "example.com/app" "/proj"
              [] "a" Demo.dir_a [("vendor", Some (Demo.leaf "x" []))]
              "z" (Demo.leaf "z" ["x/a"]) [] Demo.no_go srcs
              Hscan eq_refl eq_refl)
    as (srcs1 & srcs2 & l1 & l2 & l3 & H1 & H2 & ->).
  vm_compute in H1. injection H1 as <-.
  vm_compute in H2. injection H2 as <-.
  by exists l1, l2, l3.
Defined.

Lemma rangeFiles_same_result v v' files acc acc' :
  (forall name sub,
      (name, Some sub) ∈ files -> same_result (v name sub) (v' name sub)) ->
  Forall2 same_source acc acc' ->
  same_result (rangeFiles v files acc) (rangeFiles v' files acc').
Proof.
  revert acc acc'.
  induction files as [| [name fi] files IH]; intros acc acc' Hv Hacc; simpl.
  - exact Hacc.
  - assert (Hrest : forall name0 sub,
               (name0, Some sub) ∈ files ->
               same_result (v name0 sub) (v' name0 sub)).
    { intros name0 sub Hin. apply Hv. by apply list_elem_of_further. }
    destruct (ignored name); [by apply IH |].
    destruct fi as [sub |]; [| by apply IH].
    specialize (Hv name sub (list_elem_of_here _ _)).
    destruct (v name sub) as [more | msg], (v' name sub) as [more' | msg'];
      simpl in Hv; try contradiction.
    + apply IH; [exact Hrest |]. by apply Forall2_app.
    + exact Hv.
Qed.

(** X4.  The prefix only names the descriptors: under two prefixes the
    scan of a tree exits with the same message or returns the same
    sources in the same order, descriptor by descriptor equal in
    directory, name and imports. *)
Theorem scan_prefix_only_names {E : Env} t :
  forall prefix prefix' dir,
    same_result (loadSources prefix dir t) (loadSources prefix' dir t).
Proof.
  induction t as [err source | files source IH] using DirTree_nested_ind;
    intros prefix prefix' dir.
  - reflexivity.
  - rewrite !loadSources_unfold.
    assert (Hloop : same_result
                      (rangeFiles (visit prefix dir) files [])
                      (rangeFiles (visit prefix' dir) files [])).
    { apply rangeFiles_same_result; [| constructor].
      intros name sub Hin. rewrite Forall_forall in IH.
      apply (IH _ Hin sub eq_refl). }
    destruct (rangeFiles (visit prefix dir) files []) as [out | msg],
             (rangeFiles (visit prefix' dir) files []) as [out' | msg'];
      simpl in Hloop; try contradiction; [| exact Hloop].
    destruct (source dir) as [pkg | err | err]; simpl.
    + apply Forall2_app; [exact Hloop |].
      constructor; [| constructor]. by repeat split.
    + exact Hloop.
    + reflexivity.
Qed.

(** ** The resolver *)

Lemma for_each_unchanged {X S : Type} (body : X -> S -> option (Run S)) l s :
  (forall x, x ∈ l -> body x s = Some (Done s)) ->
  for_each body l s = Some (Done s).
Proof.
  induction l as [| x l IH]; intros Hbody; simpl; [reflexivity |].
  rewrite (Hbody x (list_elem_of_here _ _)).
  apply IH. intros y Hy. apply Hbody. by apply list_elem_of_further.
Qed.

Lemma resolve_unchanged {E : Env} fuel rootdir srcs0 :
  (forall p i, p ∈ srcs0 -> i ∈ Imports p -> i ∈ map ImportPath srcs0) ->
  resolve (S fuel) rootdir srcs0 = Some (Done (initial srcs0)).
Proof.
  intros Hlocal. unfold resolve.
  apply for_each_unchanged. intros p Hp.
  apply for_each_unchanged. intros i Hi.
  simpl.
  assert (Hseen : is_seen (seen (initial srcs0)) i = true)
    by (apply initial_seen; by eapply Hlocal).
  simpl in Hseen. by rewrite Hseen.
Qed.

(** X5.  A set of packages that import only each other resolves to
    itself without a single call to the file system, whatever
    [GOROOT] and the vendor directory hold: the packages of the project
    are never looked up.  The empty set and packages without imports
    are cases of it. *)
Theorem local_imports_need_no_lookup {E : Env} fuel rootdir srcs0 :
  (forall p i, p ∈ srcs0 -> i ∈ Imports p -> i ∈ map ImportPath srcs0) ->
  loadDependencies (S fuel) rootdir srcs0 = Some (Done srcs0) /\
  exists st,
    resolve (S fuel) rootdir srcs0 = Some (Done st) /\ trace st = [].
Proof.
  intros Hlocal.
  pose proof (resolve_unchanged fuel rootdir srcs0 Hlocal) as Hrun.
  split.
  - by rewrite loadDependencies_resolve, Hrun.
  - by exists (initial srcs0).
Qed.

(** The packages [a] and [a/b] of the example tree: [a] imports [a/b],
    which is in no root. *)
Lemma local_imports_need_no_lookup_witness :
  let pkgs :=
    [ {| ImportPath := "example.com/app/a/b"; Dir := "/proj/a/b";
         Name := "b"; Imports := [] |};
      {| ImportPath := "example.com/app/a"; Dir := "/proj/a"; Name := "a";
         Imports := ["example.com/app/a/b"] |} ] in
  loadDependencies (E := Demo.golo) 1 "/proj" pkgs = Some (Done pkgs) /\
  exists msg,
    snd (load (E := Demo.golo) "/proj" "example.com/app/a/b") = Exited msg.
Proof.
  intros pkgs. split; [| by eexists].
  apply (local_imports_need_no_lookup (E := Demo.golo) 0 "/proj" pkgs).
  intros p i Hp Hi. unfold pkgs in Hp.
  apply elem_of_cons in Hp as [-> | Hp]; [by apply elem_of_nil in Hi |].
  apply list_elem_of_singleton in Hp as ->.
  apply list_elem_of_singleton in Hi as ->.
  apply list_elem_of_here.
Defined.

Lemma resolve_closed {E : Env} fuel rootdir srcs0 st :
  resolve fuel rootdir srcs0 = Some (Done st) ->
  forall p i, p ∈ srcs st -> i ∈ Imports p -> i ∈ map ImportPath (srcs st).
Proof.
  intros Hrun p i Hp Hi.
  destruct (resolve_extends _ _ _ _ Hrun)
    as (added & (Hsrcs & _ & _ & Hseen & _ & Hclo & _) & Hinit).
  simpl in Hsrcs.
  assert (Hs : is_seen (seen st) i = true).
  { rewrite Hsrcs in Hp. apply elem_of_app in Hp as [Hp | Hp];
      [by eapply Hinit | by eapply Hclo]. }
  rewrite Hsrcs, map_app, elem_of_app.
  apply Hseen in Hs as [Hs | Hs]; [left; by apply initial_seen | by right].
Qed.

(** X6.  Resolution is idempotent: the package set a resolution
    returns resolves to itself, and that second resolution makes no
    call to the file system. *)
Theorem resolution_is_idempotent {E : Env} fuel fuel' rootdir srcs0 out :
  loadDependencies fuel rootdir srcs0 = Some (Done out) ->
  loadDependencies (S fuel') rootdir out = Some (Done out) /\
  exists st,
    resolve (S fuel') rootdir out = Some (Done st) /\ trace st = [].
Proof.
  rewrite loadDependencies_resolve.
  destruct (resolve fuel rootdir srcs0) as [[st | msg] |] eqn:Hrun;
    try discriminate.
  intros [= <-].
  pose proof (resolve_unchanged fuel' rootdir (srcs st)
                (resolve_closed _ _ _ _ Hrun)) as Hrun'.
  split.
  - by rewrite loadDependencies_resolve, Hrun'.
  - by exists (initial (srcs st)).
Qed.

Lemma resolution_is_idempotent_witness :
  exists out,
    loadDependencies (E := Demo.golo) 5 "/proj" [Demo.app] = Some (Done out) /\
    length out = 5 /\
    loadDependencies (E := Demo.golo) 1 "/proj" out = Some (Done out).
Proof.
  destruct (loadDependencies (E := Demo.golo) 5 "/proj" [Demo.app])
    as [[out | msg] |] eqn:Hrun;
    [| vm_compute in Hrun; discriminate Hrun
     | vm_compute in Hrun; discriminate Hrun].
  exists out. split; [reflexivity |]. split.
  - vm_compute in Hrun. injection Hrun as <-. reflexivity.
  - apply (resolution_is_idempotent (E := Demo.golo) 5 0 "/proj"
             [Demo.app] out Hrun).
Defined.

Lemma preceded_app base a1 a2 :
  preceded base a1 -> preceded (base ++ a1) a2 -> preceded base (a1 ++ a2).
Proof.
  intros H1 H2 i q Hq.
  destruct (decide (i < length a1)) as [Hlt | Hge].
  - rewrite lookup_app_l in Hq by exact Hlt.
    destruct (H1 i q Hq) as (p & Hp & Hi).
    exists p. split; [| exact Hi].
    by rewrite take_app_le by lia.
  - rewrite lookup_app_r in Hq by lia.
    destruct (H2 _ q Hq) as (p & Hp & Hi).
    exists p. split; [| exact Hi].
    by rewrite take_app_ge, app_assoc by lia.
Qed.

Lemma for_each_preceded {X : Type}
    (body : X -> Resolver -> option (Run Resolver))
    (Pre : X -> list Package -> Prop) (l : list X) :
  (forall x base a, Pre x base -> Pre x (base ++ a)) ->
  (forall x s s',
      Pre x (srcs s) -> body x s = Some (Done s') ->
      exists a, srcs s' = srcs s ++ a /\ preceded (srcs s) a) ->
  forall s s',
    (forall x, x ∈ l -> Pre x (srcs s)) ->
    for_each body l s = Some (Done s') ->
    exists a, srcs s' = srcs s ++ a /\ preceded (srcs s) a.
Proof.
  intros Hmono Hbody.
  induction l as [| x l IH]; intros s s' Hpre Hrun; simpl in Hrun.
  - injection Hrun as <-. exists []. split; [by rewrite app_nil_r |].
    intros i q Hq. by rewrite lookup_nil in Hq.
  - destruct (body x s) as [[s1 | msg] |] eqn:Hx; try discriminate.
    destruct (Hbody x s s1 (Hpre x (list_elem_of_here _ _)) Hx)
      as (a1 & Hs1 & Hp1).
    destruct (IH s1 s') as (a2 & Hs2 & Hp2); [| exact Hrun |].
    { intros y Hy. rewrite Hs1. apply Hmono, Hpre.
      by apply list_elem_of_further. }
    exists (a1 ++ a2). split; [by rewrite Hs2, Hs1, app_assoc |].
    apply preceded_app; [exact Hp1 |]. by rewrite <- Hs1.
Qed.

Lemma walk_preceded {E : Env} rootdir fuel :
  forall path st st',
    (exists p, p ∈ srcs st /\ path ∈ Imports p) ->
    walk fuel rootdir path st = Some (Done st') ->
    exists a, srcs st' = srcs st ++ a /\ preceded (srcs st) a.
Proof.
  induction fuel as [| fuel IH]; intros path st st' Hpre Hwalk;
    [discriminate |].
  simpl in Hwalk.
  destruct (is_seen (seen st) path).
  { injection Hwalk as <-. exists []. split; [by rewrite app_nil_r |].
    intros i q Hq. by rewrite lookup_nil in Hq. }
  destruct (load rootdir path) as [t [pkg | msg]] eqn:Hload; [| discriminate].
  pose proof (load_ImportPath _ _ _ _ Hload) as Hid.
  destruct (for_each_preceded (walk fuel rootdir)
              (fun i base => exists p, p ∈ base /\ i ∈ Imports p)
              (Imports pkg))
    with (4 := Hwalk) as (a2 & Hs2 & Hp2).
  - intros i base a (p & Hp & Hi). exists p.
    split; [apply elem_of_app; by left | exact Hi].
  - intros i s s'. apply IH.
  - intros i Hi. exists pkg. simpl.
    split; [apply elem_of_app; right; apply list_elem_of_here | exact Hi].
  - simpl in Hs2, Hp2. exists ([pkg] ++ a2).
    split; [by rewrite Hs2, <- app_assoc |].
    apply preceded_app; [| exact Hp2].
    intros [| i] q Hq; [| by destruct i].
    injection Hq as <-. destruct Hpre as (p & Hp & Hi).
    exists p. simpl. rewrite app_nil_r, Hid. by split.
Qed.

(** X7.  Every descriptor the resolution adds comes after a package
    that imports it: an importer is in the initial set or earlier among
    the added descriptors.  So nothing is loaded that the initial
    packages do not reach through imports. *)
Theorem dependencies_follow_an_importer {E : Env} fuel rootdir srcs0 out :
  loadDependencies fuel rootdir srcs0 = Some (Done out) ->
  exists added,
    out = srcs0 ++ added /\
    forall i q,
      added !! i = Some q ->
      exists p, p ∈ srcs0 ++ take i added /\ ImportPath q ∈ Imports p.
Proof.
  rewrite loadDependencies_resolve.
  destruct (resolve fuel rootdir srcs0) as [[st | msg] |] eqn:Hrun;
    try discriminate.
  intros [= <-]. unfold resolve in Hrun.
  destruct (for_each_preceded
              (fun src => for_each (walk fuel rootdir) (Imports src))
              (fun src base => src ∈ base) srcs0)
    with (4 := Hrun) as (added & Hsrcs & Hpre).
  - intros src base a Hin. apply elem_of_app. by left.
  - intros src s s' Hsrc Hloop.
    eapply (for_each_preceded (walk fuel rootdir)
              (fun i base => exists p, p ∈ base /\ i ∈ Imports p));
      [| | | exact Hloop].
    + intros i base a (p & Hp & Hi). exists p.
      split; [apply elem_of_app; by left | exact Hi].
    + intros i s1 s2. apply walk_preceded.
    + intros i Hi. by exists src.
  - by intros src Hsrc.
  - by exists added.
Qed.

Lemma dependencies_follow_an_importer_witness :
  exists added,
    loadDependencies (E := Demo.golo) 5 "/proj" [Demo.app]
    = Some (Done (Demo.app :: added)) /\
    map ImportPath added = ["fmt"; "x/a"; "x/c"; "x/b"] /\
    exists p, p ∈ Demo.app :: take 2 added /\ "x/c" ∈ Imports p.
Proof.
  destruct (loadDependencies (E := Demo.golo) 5 "/proj" [Demo.app])
    as [[out | msg] |] eqn:Hrun;
    [| vm_compute in Hrun; discriminate Hrun
     | vm_compute in Hrun; discriminate Hrun].
  destruct (dependencies_follow_an_importer (E := Demo.golo) 5 "/proj"
              [Demo.app] out Hrun) as (added & -> & Hpre).
  exists added. split; [reflexivity |].
  vm_compute in Hrun. injection Hrun as <-.
  split; [reflexivity |].
  apply (Hpre 2 {| ImportPath := "x/c"; Dir := "/proj/vendor/x/c";
                   Name := "c"; Imports := ["x/a"; "fmt"] |}).
  reflexivity.
Defined.

Lemma probes_app t1 t2 : probes (t1 ++ t2) = probes t1 ++ probes t2.
Proof.
  induction t1 as [| [path | dir | dir] t1 IH]; simpl; by rewrite ?IH.
Qed.

Lemma imports_of_app t1 t2 :
  imports_of (t1 ++ t2) = imports_of t1 ++ imports_of t2.
Proof.
  induction t1 as [| [path | dir | dir] t1 IH]; simpl; by rewrite ?IH.
Qed.

Lemma calls_app {E : Env} rootdir a1 a2 :
  calls rootdir (a1 ++ a2) = calls rootdir a1 ++ calls rootdir a2.
Proof. unfold calls. by rewrite flat_map_app. Qed.

Lemma for_each_calls {E : Env} {X : Type} rootdir
    (body : X -> Resolver -> option (Run Resolver)) (l : list X) :
  (forall x s s',
      body x s = Some (Done s') ->
      exists a, srcs s' = srcs s ++ a /\
                trace s' = trace s ++ calls rootdir a) ->
  forall s s',
    for_each body l s = Some (Done s') ->
    exists a, srcs s' = srcs s ++ a /\ trace s' = trace s ++ calls rootdir a.
Proof.
  intros Hbody.
  induction l as [| x l IH]; intros s s' Hrun; simpl in Hrun.
  - injection Hrun as <-. exists []. by rewrite !app_nil_r.
  - destruct (body x s) as [[s1 | msg] |] eqn:Hx; try discriminate.
    destruct (Hbody _ _ _ Hx) as (a1 & Hs1 & Ht1).
    destruct (IH _ _ Hrun) as (a2 & Hs2 & Ht2).
    exists (a1 ++ a2).
    by rewrite Hs2, Hs1, Ht2, Ht1, calls_app, !app_assoc.
Qed.

Lemma walk_calls {E : Env} rootdir fuel :
  forall path st st',
    walk fuel rootdir path st = Some (Done st') ->
    exists a, srcs st' = srcs st ++ a /\
              trace st' = trace st ++ calls rootdir a.
Proof.
  induction fuel as [| fuel IH]; intros path st st' Hwalk; [discriminate |].
  simpl in Hwalk.
  destruct (is_seen (seen st) path).
  { injection Hwalk as <-. exists []. by rewrite !app_nil_r. }
  destruct (load rootdir path) as [t [pkg | msg]] eqn:Hload; [| discriminate].
  pose proof (load_ImportPath _ _ _ _ Hload) as Hid.
  destruct (for_each_calls rootdir (walk fuel rootdir) (Imports pkg) IH
              _ _ Hwalk) as (a2 & Hs2 & Ht2).
  simpl in Hs2, Ht2. exists (pkg :: a2).
  split; [by rewrite Hs2, <- app_assoc |].
  rewrite Ht2, <- app_assoc. unfold calls at 2. simpl.
  by rewrite Hid, Hload.
Qed.

Lemma load_calls {E : Env} rootdir path pkg :
  snd (load rootdir path) = Done pkg ->
  length (imports_of (fst (load rootdir path))) = 1 /\
  1 <= length (probes (fst (load rootdir path))) <= 2.
Proof.
  rewrite load_spec.
  destruct (os_Stat _); [| destruct (os_Stat _)]; simpl;
    intros Hpkg; try discriminate; lia.
Qed.

(** X8.  The file system calls of a resolution that returns are those
    of one [load] for each added descriptor, in the order of the
    output and nothing else: one [build.ImportDir] for each added
    descriptor, and one or two [os.Stat]. *)
Theorem resolution_calls {E : Env} fuel rootdir srcs0 st :
  resolve fuel rootdir srcs0 = Some (Done st) ->
  exists added,
    srcs st = srcs0 ++ added /\
    trace st = calls rootdir added /\
    length (imports_of (trace st)) = length added /\
    length added <= length (probes (trace st)) <= 2 * length added.
Proof.
  intros Hrun.
  destruct (resolve_extends _ _ _ _ Hrun)
    as (added & (Hsrcs & _ & _ & _ & _ & _ & Hld) & _).
  simpl in Hsrcs.
  assert (Hcalls : exists a, srcs st = srcs0 ++ a /\
                             trace st = calls rootdir a).
  { unfold resolve in Hrun.
    destruct (for_each_calls rootdir
                (fun src => for_each (walk fuel rootdir) (Imports src))
                srcs0) with (2 := Hrun) as (a & Hs & Ht); [| by exists a].
    intros src s s'. apply for_each_calls. apply walk_calls. }
  destruct Hcalls as (a & Hs & Ht).
  assert (a = added) as -> by (rewrite Hsrcs in Hs; by apply app_inv_head in Hs).
  exists added. split; [exact Hsrcs |]. split; [exact Ht |].
  rewrite Ht. clear Hrun Hsrcs Hs Ht.
  induction added as [| p added IH]; [simpl; lia |].
  unfold calls. simpl. fold (calls rootdir added).
  rewrite imports_of_app, probes_app, !length_app.
  destruct (load_calls rootdir (ImportPath p) p) as (Hi & Hp);
    [apply Hld, list_elem_of_here |].
  destruct IH as (IHi & IHp);
    [intros q Hq; apply Hld; by apply list_elem_of_further |].
  simpl. lia.
Qed.

Lemma resolution_calls_witness :
  exists st,
    resolve (E := Demo.golo) 5 "/proj" [Demo.app] = Some (Done st) /\
    length (imports_of (trace st)) = 4 /\
    length (probes (trace st)) = 7.
Proof.
  destruct (resolve (E := Demo.golo) 5 "/proj" [Demo.app])
    as [[st | msg] |] eqn:Hrun;
    [| vm_compute in Hrun; discriminate Hrun
     | vm_compute in Hrun; discriminate Hrun].
  exists st. split; [reflexivity |].
  destruct (resolution_calls (E := Demo.golo) 5 "/proj" [Demo.app] st Hrun)
    as (added & Hsrcs & _ & Himports & _).
  assert (Hst : Some (Done st)
                = resolve (E := Demo.golo) 5 "/proj" [Demo.app])
    by (symmetry; exact Hrun).
  vm_compute in Hst. injection Hst as ->.
  simpl in Hsrcs. injection Hsrcs as <-.
  split; [exact Himports | reflexivity].
Defined.

Lemma for_each_exit {X S : Type} (body : X -> S -> option (Run S)) l :
  forall s msg,
    for_each body l s = Some (Exited msg) ->
    exists x s', x ∈ l /\ body x s' = Some (Exited msg).
Proof.
  induction l as [| x l IH]; intros s msg Hrun; simpl in Hrun;
    [discriminate |].
  destruct (body x s) as [[s1 | msg'] |] eqn:Hx; [| | discriminate].
  - destruct (IH _ _ Hrun) as (y & s' & Hy & Hbody).
    exists y, s'. split; [by apply list_elem_of_further | exact Hbody].
  - injection Hrun as <-. exists x, s.
    split; [apply list_elem_of_here | exact Hx].
Qed.

Lemma walk_exit {E : Env} rootdir fuel :
  forall path st msg,
    walk fuel rootdir path st = Some (Exited msg) ->
    exists path', snd (load rootdir path') = Exited msg.
Proof.
  induction fuel as [| fuel IH]; intros path st msg Hwalk; [discriminate |].
  simpl in Hwalk.
  destruct (is_seen (seen st) path); [discriminate |].
  destruct (load rootdir path) as [t [pkg | msg']] eqn:Hload.
  - destruct (for_each_exit _ _ _ _ Hwalk) as (i & s' & _ & Hi).
    by eapply IH.
  - injection Hwalk as <-. exists path. by rewrite Hload.
Qed.

(** X9.  A resolution exits only with what [load] writes for one
    identifier: the directory it found, in the standard library root
    or else the vendor directory, does not load, and the message is
    [fatal: ], the error of [build.ImportDir] and a newline; or neither
    directory exists, and the message names the identifier.  A
    directory that exists without buildable Go source is such a fatal
    error for the resolver, where the scanner would pass over it. *)
Theorem resolution_exits_with_load {E : Env} rootdir :
  (forall fuel srcs0 msg,
      loadDependencies fuel rootdir srcs0 = Some (Exited msg) ->
      exists path,
        let std := filepath_Join [GOROOT; "src"; path] in
        let vend := filepath_Join [rootdir; "vendor"; path] in
        (exists dir err,
            (dir = std /\ os_Stat std = StatOk \/
             dir = vend /\ os_Stat std <> StatOk /\ os_Stat vend = StatOk) /\
            (build_ImportDir dir = NoGoError err \/
             build_ImportDir dir = ImportError err) /\
            msg = "fatal: " +:+ err +:+ LF) \/
        (exists b e,
            os_Stat std <> StatOk /\ os_Stat vend = StatErr b e /\
            msg = "fatal: cannot resolve path" +:+ path +:+ " " +:+ e
                    +:+ LF)) /\
  (forall fuel path st err,
      is_seen (seen st) path = false ->
      os_Stat (filepath_Join [GOROOT; "src"; path]) = StatOk ->
      build_ImportDir (filepath_Join [GOROOT; "src"; path]) = NoGoError err ->
      walk (S fuel) rootdir path st
      = Some (Exited ("fatal: " +:+ err +:+ LF))).
Proof.
  split.
  - intros fuel srcs0 msg. rewrite loadDependencies_resolve.
    destruct (resolve fuel rootdir srcs0) as [[st | msg'] |] eqn:Hrun;
      try discriminate.
    intros [= ->]. unfold resolve in Hrun.
    destruct (for_each_exit _ _ _ _ Hrun) as (src & s & _ & Hsrc).
    destruct (for_each_exit _ _ _ _ Hsrc) as (i & s' & _ & Hwalk).
    destruct (walk_exit _ _ _ _ _ Hwalk) as (path & Hload).
    exists path. intros std vend.
    pose proof (load_spec rootdir path) as Hspec. simpl in Hspec.
    fold std vend in Hspec. rewrite Hspec in Hload.
    destruct (os_Stat std) as [| b1 e1] eqn:Hstd.
    + left. simpl in Hload.
      destruct (build_ImportDir std) as [pkg | err | err] eqn:Hdir;
        try discriminate; injection Hload as <-;
        exists std, err; (split; [by left |]); split; auto.
    + destruct (os_Stat vend) as [| b2 e2] eqn:Hvend.
      * left. simpl in Hload.
        destruct (build_ImportDir vend) as [pkg | err | err] eqn:Hdir;
          try discriminate; injection Hload as <-;
          exists vend, err; (split; [by right |]); split; auto.
      * right. simpl in Hload. injection Hload as <-.
        exists b2, e2. by repeat split.
  - intros fuel path st err Hseen Hstd Hdir. simpl.
    by rewrite Hseen, load_spec, Hstd, Hdir.
Qed.

(** The vendored directory [x/empty] of the example holds no Go
    source. *)
Lemma resolution_exits_with_load_witness :
  loadDependencies (E := Demo.golo) 5 "/proj"
    [ {| ImportPath := "example.com/app"; Dir := "/proj"; Name := "main";
         Imports := ["fmt"; "x/empty"] |} ]
  = Some (Exited ("fatal: "
                  +:+ "no buildable Go source files in /proj/vendor/x/empty"
                  +:+ LF)) /\
  exists path msg, snd (load (E := Demo.golo) "/proj" path) = Exited msg.
Proof.
  split; [reflexivity |].
  destruct (proj1 (resolution_exits_with_load (E := Demo.golo) "/proj")
              5 [ {| ImportPath := "example.com/app"; Dir := "/proj";
                     Name := "main"; Imports := ["fmt"; "x/empty"] |} ]
              ("fatal: "
               +:+ "no buildable Go source files in /proj/vendor/x/empty"
               +:+ LF) eq_refl) as (path & _).
  exists "x/empty". by eexists.
Defined.

(** ** The override layer and the cache path, further *)

Lemma prefix_app p s : String.prefix p (p +:+ s) = true.
Proof.
  induction p as [| c p IH]; simpl; [by destruct s |].
  change (String c p +:+ s) with (String c (p +:+ s)). simpl.
  destruct (ascii_dec c c) as [_ | Hne]; [exact IH | by destruct Hne].
Qed.

Lemma prefix_inv p s : String.prefix p s = true -> exists t, s = p +:+ t.
Proof.
  revert s. induction p as [| c p IH]; intros s Hpre.
  - by exists s.
  - destruct s as [| c' s]; simpl in Hpre; [discriminate |].
    destruct (ascii_dec c c') as [<- | _]; [| discriminate].
    destruct (IH s Hpre) as [t ->]. by exists t.
Qed.

Lemma prefix_app_l p k s :
  String.prefix (p +:+ k) s = true -> String.prefix p s = true.
Proof.
  intros Hpre. destruct (prefix_inv _ _ Hpre) as [t ->].
  rewrite append_assoc. apply prefix_app.
Qed.

(** X10.  A registered function matches identifiers as text: every
    identifier that continues the prefix, by a path element or not, is
    served from the cache directory whatever the fallback is, and only
    those are; the empty prefix takes every identifier.  Of two
    registrations stacked on each other, the outer one serves what
    both match. *)
Theorem register_matches_textually {E : Env}
    rootdir prefix kind arg next next' :
  (forall s,
      register rootdir prefix kind arg next (prefix +:+ s)
      = register rootdir prefix kind arg next' (prefix +:+ s)) /\
  (forall path,
      (forall s, path <> prefix +:+ s) ->
      register rootdir prefix kind arg next path = next path) /\
  (forall path,
      register rootdir "" kind arg next path
      = register rootdir "" kind arg next' path) /\
  (forall prefix2 kind2 arg2 s,
      register rootdir prefix kind arg
        (register rootdir prefix2 kind2 arg2 next) (prefix +:+ s)
      = register rootdir prefix kind arg next (prefix +:+ s)).
Proof.
  split; [| split; [| split]].
  - intros s. by rewrite !register_spec, prefix_app.
  - intros path Hno. rewrite register_spec.
    destruct (String.prefix prefix path) eqn:Hpre; [| reflexivity].
    destruct (prefix_inv _ _ Hpre) as [t ->]. by destruct (Hno t).
  - intros path. rewrite !register_spec. by destruct path.
  - intros prefix2 kind2 arg2 s. by rewrite !register_spec, prefix_app.
Qed.

(** [example.com/foobar] continues the prefix [example.com/foo] and is
    looked up in its cache directory, not handed to the fallback. *)
Lemma register_matches_textually_witness :
  snd (register (E := Demo.golo) "/proj" "example.com/foo" "pin" "v1"
         (load (E := Demo.golo) "/proj") "example.com/foobar")
  = Exited ("fatal: stat " +:+ Demo.pinned +:+ "/example.com/foobar"
              +:+ ": no such file or directory" +:+ LF) /\
  snd (register (E := Demo.golo) "/proj" "example.com/foo" "pin" "v1"
         (fun _ => ([], Exited "never")) "example.com/foobar")
  = Exited ("fatal: stat " +:+ Demo.pinned +:+ "/example.com/foobar"
              +:+ ": no such file or directory" +:+ LF).
Proof.
  split; [vm_compute; reflexivity |].
  change "example.com/foobar" with ("example.com/foo" +:+ "bar").
  rewrite (proj1 (register_matches_textually (E := Demo.golo)
                    "/proj" "example.com/foo" "pin" "v1"
                    (fun _ => ([], Exited "never"))
                    (load (E := Demo.golo) "/proj")) "bar").
  vm_compute. reflexivity.
Defined.

(** X11.  The scope string is a plain concatenation, so registrations
    that split it differently share a cache directory: an identifier
    that continues [prefix + k1] is served alike with the kind
    [k1 + k2] under [prefix] and with the kind [k2] under
    [prefix + k1], and alike with the kind [kind] and the argument
    [a1 + "=" + a2] and with the kind [kind + "=" + a1] and the
    argument [a2]. *)
Theorem scopes_share_cache {E : Env} rootdir prefix k1 k2 arg next path :
  String.prefix (prefix +:+ k1) path = true ->
  register rootdir prefix (k1 +:+ k2) arg next path
  = register rootdir (prefix +:+ k1) k2 arg next path /\
  forall kind a1 a2,
    register rootdir prefix kind (a1 +:+ "=" +:+ a2) next path
    = register rootdir prefix (kind +:+ "=" +:+ a1) a2 next path.
Proof.
  intros Hpre. pose proof (prefix_app_l _ _ _ Hpre) as Hpre'.
  split.
  - rewrite !register_spec, Hpre, Hpre'. by rewrite !append_assoc.
  - intros kind a1 a2. rewrite !register_spec, Hpre'.
    by rewrite !append_assoc.
Qed.

Lemma scopes_share_cache_witness :
  register (E := Demo.golo) "/proj" "example.com/" "foopin" "v1"
    (load (E := Demo.golo) "/proj") "example.com/foo/bar"
  = register (E := Demo.golo) "/proj" "example.com/foo" "pin" "v1"
      (load (E := Demo.golo) "/proj") "example.com/foo/bar".
Proof.
  apply (proj1 (scopes_share_cache (E := Demo.golo) "/proj" "example.com/"
                  "foo" "pin" "v1" (load (E := Demo.golo) "/proj")
                  "example.com/foo/bar" eq_refl)).
Defined.

Lemma unhex_byte x :
  exists h l,
    unhex_digit (hex_digit (Byte.to_N x / 16)) = Some h /\
    unhex_digit (hex_digit (Byte.to_N x mod 16)) = Some l /\
    Byte.of_N (16 * h + l) = Some x.
Proof. destruct x; vm_compute; do 2 eexists; repeat split. Qed.

Lemma unhex_hex b : unhex (hex b) = Some b.
Proof.
  induction b as [| x b IH]; [reflexivity |].
  destruct (unhex_byte x) as (h & l & Hh & Hl & Hx).
  simpl. by rewrite Hh, Hl, IH, Hx.
Qed.

Lemma hex_inj b b' : hex b = hex b' -> b = b'.
Proof.
  intros Heq. apply (f_equal unhex) in Heq.
  rewrite !unhex_hex in Heq. by injection Heq.
Qed.

(** X12.  The shard and leaf names of a cache path are the
    hexadecimal digits of the digest, the shard first, and read back to
    it: two scope strings get the same shard and the same leaf only
    when their digests are equal. *)
Theorem cache_names_identify_digest {E : Env} key key' b rest b' rest' :
  sha1_Sum key = b :: rest ->
  sha1_Sum key' = b' :: rest' ->
  hex (sha1_Sum key) = hex [b] +:+ hex rest /\
  unhex (hex [b] +:+ hex rest) = Some (sha1_Sum key) /\
  (hex [b] = hex [b'] -> hex rest = hex rest' ->
   sha1_Sum key = sha1_Sum key').
Proof.
  intros Hk Hk'.
  assert (Hcat : hex (b :: rest) = hex [b] +:+ hex rest) by reflexivity.
  split; [by rewrite Hk |].
  split; [by rewrite <- Hcat, unhex_hex, Hk |].
  intros Hshard Hleaf. rewrite Hk, Hk'.
  apply hex_inj in Hshard. apply hex_inj in Hleaf. congruence.
Qed.

Lemma cache_names_identify_digest_witness :
  unhex (hex [xe8] +:+ hex (skipn 1 (SHA1.Sum "a:b=c")))
  = Some (@sha1_Sum Demo.golo "a:b=c").
Proof.
  destruct (cache_names_identify_digest (E := Demo.golo) "a:b=c" "a:b=c"
              xe8 (skipn 1 (SHA1.Sum "a:b=c"))
              xe8 (skipn 1 (SHA1.Sum "a:b=c"))) as (_ & Hback & _).
  - vm_compute. reflexivity.
  - vm_compute. reflexivity.
  - exact Hback.
Defined.

(** ** kodos.go: the repository root and the package guess *)

Lemma above_step {R : Repo} n dir :
  Kodos.above n (filepath_Dir dir) = Kodos.above (S n) dir.
Proof. unfold Kodos.above. by rewrite Nat.iter_succ_r. Qed.

(** What the loop of [findreporoot] has seen when it stops after [n]
    steps up. *)
Lemma findreporoot_from_stops {E : Env} {R : Repo} fuel :
  forall orig dir r,
    Kodos.findreporoot_from fuel orig dir = Some r ->
    exists n,
      n < fuel /\
      (forall m, m < n ->
                 Kodos.no_repo (Kodos.above m dir) /\
                 filepath_Dir (Kodos.above m dir) <> Kodos.above m dir) /\
      match r with
      | Done (root, None) =>
          root = Kodos.above n dir /\
          os_Stat_mode (filepath_Join [root; ".git"]) = ModeDir
      | Done (root, Some e) =>
          root = "" /\ e = "could not locate .git in " +:+ orig /\
          Kodos.no_repo (Kodos.above n dir) /\
          filepath_Dir (Kodos.above n dir) = Kodos.above n dir
      | Exited msg =>
          exists err,
            os_Stat_mode (filepath_Join [Kodos.above n dir; ".git"])
            = ModeErr false err /\
            msg = "fatal: " +:+ err +:+ LF
      end.
Proof.
  induction fuel as [| fuel IH]; intros orig dir r Hrun; [discriminate |].
  simpl in Hrun.
  assert (Hup : Kodos.no_repo dir ->
                (if String.eqb (filepath_Dir dir) dir
                 then Some (Done ("", Some ("could not locate .git in "
                                            +:+ orig)))
                 else Kodos.findreporoot_from fuel orig (filepath_Dir dir))
                = Some r ->
                exists n,
                  n < S fuel /\
                  (forall m, m < n ->
                     Kodos.no_repo (Kodos.above m dir) /\
                     filepath_Dir (Kodos.above m dir) <> Kodos.above m dir) /\
                  match r with
                  | Done (root, None) =>
                      root = Kodos.above n dir /\
                      os_Stat_mode (filepath_Join [root; ".git"]) = ModeDir
                  | Done (root, Some e) =>
                      root = "" /\ e = "could not locate .git in " +:+ orig /\
                      Kodos.no_repo (Kodos.above n dir) /\
                      filepath_Dir (Kodos.above n dir) = Kodos.above n dir
                  | Exited msg =>
                      exists err,
                        os_Stat_mode
                          (filepath_Join [Kodos.above n dir; ".git"])
                        = ModeErr false err /\
                        msg = "fatal: " +:+ err +:+ LF
                  end).
  { intros Hno Hnext.
    destruct (String.eqb (filepath_Dir dir) dir) eqn:Heq.
    - apply String.eqb_eq in Heq. injection Hnext as <-.
      exists 0. split; [lia |]. split; [intros m Hm; lia |]. done.
    - apply String.eqb_neq in Heq.
      destruct (IH _ _ _ Hnext) as (n & Hn & Hbelow & Hr).
      exists (S n). split; [lia |]. split.
      + intros [| m] Hm; [done |]. rewrite <- above_step.
        apply Hbelow. lia.
      + rewrite <- above_step. exact Hr. }
  destruct (os_Stat_mode (filepath_Join [dir; ".git"])) as [| | [|] err]
    eqn:Hmode.
  - injection Hrun as <-. exists 0.
    split; [lia |]. split; [intros m Hm; lia |]. done.
  - apply Hup; [| exact Hrun]. unfold Kodos.no_repo. by rewrite Hmode.
  - apply Hup; [| exact Hrun]. unfold Kodos.no_repo. by rewrite Hmode.
  - injection Hrun as <-. exists 0.
    split; [lia |]. split; [intros m Hm; lia |].
    exists err. by split.
Qed.

(** X13.  When [findreporoot] returns a directory, it is the closest
    one above the directory given, itself counted, that holds a [.git]
    directory: every directory below it on the way up holds none (a
    [.git] that is a file is passed over). *)
Theorem findreporoot_closest {E : Env} {R : Repo} fuel dir root :
  Kodos.findreporoot fuel dir = Some (Done (root, None)) ->
  exists n,
    root = Kodos.above n dir /\
    os_Stat_mode (filepath_Join [root; ".git"]) = ModeDir /\
    forall m, m < n ->
              os_Stat_mode (filepath_Join [Kodos.above m dir; ".git"])
              <> ModeDir.
Proof.
  intros Hrun.
  destruct (findreporoot_from_stops _ _ _ _ Hrun)
    as (n & _ & Hbelow & -> & Hgit).
  exists n. split; [reflexivity |]. split; [exact Hgit |].
  intros m Hm Hdir. destruct (Hbelow m Hm) as [Hno _].
  unfold Kodos.no_repo in Hno. by rewrite Hdir in Hno.
Qed.

(** From a package of the submodule [sub], whose [.git] is a file, the
    root is the checkout above. *)
Lemma findreporoot_closest_witness :
  Kodos.findreporoot (E := Demo.golo) (R := DemoRepo.kodos) 10
    "/home/u/proj/sub/pkg" = Some (Done ("/home/u/proj", None)) /\
  exists n,
    "/home/u/proj"
    = Kodos.above (R := DemoRepo.kodos) n "/home/u/proj/sub/pkg".
Proof.
  split; [reflexivity |].
  destruct (findreporoot_closest (E := Demo.golo) (R := DemoRepo.kodos)
              10 "/home/u/proj/sub/pkg" "/home/u/proj" eq_refl)
    as (n & Hroot & _).
  by exists n.
Defined.

(** X14.  [findreporoot] fails in two ways.  It returns the error
    [could not locate .git in] followed by the directory it was given
    (not the one it stopped at) when it reaches a directory that is
    its own parent without having met a [.git] directory.  It exits
    the process when [os.Stat] on a [.git] fails otherwise than by its
    absence, with that error, and looks no further up. *)
Theorem findreporoot_failures {E : Env} {R : Repo} fuel dir :
  (forall root e,
      Kodos.findreporoot fuel dir = Some (Done (root, Some e)) ->
      root = "" /\ e = "could not locate .git in " +:+ dir /\
      exists n,
        filepath_Dir (Kodos.above n dir) = Kodos.above n dir /\
        forall m, m <= n -> Kodos.no_repo (Kodos.above m dir)) /\
  (forall msg,
      Kodos.findreporoot fuel dir = Some (Exited msg) ->
      exists n err,
        os_Stat_mode (filepath_Join [Kodos.above n dir; ".git"])
        = ModeErr false err /\
        msg = "fatal: " +:+ err +:+ LF /\
        forall m, m < n -> Kodos.no_repo (Kodos.above m dir)).
Proof.
  split.
  - intros root e Hrun.
    destruct (findreporoot_from_stops _ _ _ _ Hrun)
      as (n & _ & Hbelow & -> & -> & Hno & Hfix).
    split; [reflexivity |]. split; [reflexivity |].
    exists n. split; [exact Hfix |].
    intros m Hm. destruct (decide (m = n)) as [-> | Hne]; [exact Hno |].
    apply Hbelow. lia.
  - intros msg Hrun.
    destruct (findreporoot_from_stops _ _ _ _ Hrun)
      as (n & _ & Hbelow & err & Hmode & ->).
    exists n, err. split; [exact Hmode |]. split; [reflexivity |].
    intros m Hm. by apply Hbelow.
Qed.

Lemma findreporoot_failures_witness :
  Kodos.findreporoot (E := Demo.golo) (R := DemoRepo.kodos) 10
    "/home/u/other"
  = Some (Done ("", Some "could not locate .git in /home/u/other")) /\
  Kodos.findreporoot (E := Demo.golo) (R := DemoRepo.kodos) 10
    "/home/u/proj/locked/x"
  = Some (Exited ("fatal: "
                  +:+ "stat /home/u/proj/locked/.git: permission denied"
                  +:+ LF)) /\
  exists n,
    GoFilepath.Dir (Kodos.above (R := DemoRepo.kodos) n "/home/u/other")
    = Kodos.above (R := DemoRepo.kodos) n "/home/u/other".
Proof.
  split; [reflexivity |]. split; [reflexivity |].
  destruct (proj1 (findreporoot_failures (E := Demo.golo)
                     (R := DemoRepo.kodos) 10 "/home/u/other")
              "" "could not locate .git in /home/u/other" eq_refl)
    as (_ & _ & n & Hfix & _).
  by exists n.
Defined.

Lemma findreporoot_from_returns {E : Env} {R : Repo} orig fuel :
  forall n dir,
    filepath_Dir (Kodos.above n dir) = Kodos.above n dir ->
    n < fuel ->
    exists r, Kodos.findreporoot_from fuel orig dir = Some r.
Proof.
  induction fuel as [| fuel IH]; intros n dir Hfix Hfuel; [lia |].
  simpl.
  assert (Hup : exists r,
             (if String.eqb (filepath_Dir dir) dir
              then Some (Done ("", Some ("could not locate .git in "
                                         +:+ orig)))
              else Kodos.findreporoot_from fuel orig (filepath_Dir dir))
             = Some r).
  { destruct (String.eqb (filepath_Dir dir) dir) eqn:Heq; [by eexists |].
    apply String.eqb_neq in Heq.
    destruct n as [| n]; [by destruct Heq |].
    apply (IH n); [| lia]. by rewrite above_step. }
  destruct (os_Stat_mode (filepath_Join [dir; ".git"])) as [| | [|] err];
    [by eexists | exact Hup | exact Hup | by eexists].
Qed.

(** X15.  [findreporoot] returns as soon as the directory given has
    an ancestor, [n] steps of [filepath.Dir] up, that is its own
    parent: its loop makes at most [n + 1] rounds. *)
Theorem findreporoot_returns {E : Env} {R : Repo} fuel n dir :
  filepath_Dir (Kodos.above n dir) = Kodos.above n dir ->
  n < fuel ->
  exists r, Kodos.findreporoot fuel dir = Some r.
Proof. apply findreporoot_from_returns. Qed.

Lemma findreporoot_returns_witness :
  exists r,
    Kodos.findreporoot (E := Demo.golo) (R := DemoRepo.kodos) 4
      "/home/u/other" = Some r.
Proof.
  apply (findreporoot_returns (E := Demo.golo) (R := DemoRepo.kodos)
           4 3 "/home/u/other").
  - reflexivity.
  - lia.
Defined.






(** ** The build action *)

(** X17.  The package set [main] hands to the build is the scan of
    the project followed by the dependencies the resolution added.  It
    holds a descriptor for every buildable directory of the project
    that is not ignored, and a package for every import of every
    package in it; the added packages are those [load] returns for
    their identifier, none of which names a package of the project.
    When the scan exits, so does the build, with the message of the
    scan. *)
Theorem build_package_set {E : Env} fuel prefix dir t :
  (forall out,
      build fuel prefix dir t = Some (Done out) ->
      exists srcs0 added,
        loadSources prefix dir t = Done srcs0 /\
        out = srcs0 ++ added /\
        (forall names t' pkg,
            visible t names t' ->
            source_of t' (directory dir names) = Imported pkg ->
            setImportPath pkg (moduleID prefix names) ∈ out) /\
        (forall p i, p ∈ out -> i ∈ Imports p -> i ∈ map ImportPath out) /\
        (forall q, q ∈ added ->
                   snd (load dir (ImportPath q)) = Done q /\
                   ImportPath q ∉ map ImportPath srcs0)) /\
  (forall msg,
      loadSources prefix dir t = Exited msg ->
      build fuel prefix dir t = Some (Exited msg)).
Proof.
  unfold build. split.
  - intros out Hbuild.
    destruct (loadSources prefix dir t) as [srcs0 | msg] eqn:Hscan;
      [| discriminate].
    rewrite loadDependencies_resolve in Hbuild.
    destruct (resolve fuel dir srcs0) as [[st | msg] |] eqn:Hrun;
      try discriminate.
    injection Hbuild as <-.
    destruct (resolve_extends _ _ _ _ Hrun)
      as (added & (Hsrcs & _ & _ & _ & Hnew & _ & Hld) & _).
    simpl in Hsrcs, Hnew.
    exists srcs0, added. split; [reflexivity |]. split; [exact Hsrcs |].
    split; [| split].
    + intros names t' pkg Hreach Hsrc. rewrite Hsrcs.
      apply elem_of_app. left.
      destruct (loadSources_segment _ _ _ Hreach _ _ _ Hscan)
        as (srcs' & l1 & l2 & Hscan' & ->).
      destruct (loadSources_self_last _ _ _ _ _ Hscan' Hsrc)
        as (children & ->).
      rewrite !elem_of_app, list_elem_of_singleton. tauto.
    + by apply (resolve_closed _ _ _ _ Hrun).
    + intros q Hq. split; [by apply Hld |].
      intros Hin. apply initial_seen in Hin.
      rewrite Hnew in Hin; [discriminate |].
      apply list_elem_of_fmap. by exists q.
  - by intros msg ->.
Qed.

Lemma build_package_set_witness :
  exists srcs0 added,
    loadSources (E := Demo.golo) "example.com/app" "/proj" DemoRepo.two
    = Done srcs0 /\
    build (E := Demo.golo) 5 "example.com/app" "/proj" DemoRepo.two
    = Some (Done (srcs0 ++ added)) /\
    map ImportPath (srcs0 ++ added)
    = ["example.com/app/a/b"; "example.com/app/a"; "example.com/app/z";
       "fmt"; "x/a"; "x/c"].
Proof.
  destruct (build (E := Demo.golo) 5 "example.com/app" "/proj" DemoRepo.two)
    as [[out | msg] |] eqn:Hbuild;
    [| vm_compute in Hbuild; discriminate Hbuild
     | vm_compute in Hbuild; discriminate Hbuild].
  destruct (proj1 (build_package_set (E := Demo.golo) 5 "example.com/app"
                     "/proj" DemoRepo.two) out Hbuild)
    as (srcs0 & added & Hscan & Hout & _).
  exists srcs0, added. split; [exact Hscan |].
  rewrite <- Hout. split; [reflexivity |].
  vm_compute in Hbuild. injection Hbuild as <-. reflexivity.
Defined.

(** X18.  The resolution adds no identifier twice and none the initial
    set names: when the packages passed in have distinct identifiers,
    so have the packages returned. *)
Theorem resolution_keeps_identifiers_distinct {E : Env}
    fuel rootdir srcs0 out :
  loadDependencies fuel rootdir srcs0 = Some (Done out) ->
  NoDup (map ImportPath srcs0) ->
  NoDup (map ImportPath out).
Proof.
  rewrite loadDependencies_resolve.
  destruct (resolve fuel rootdir srcs0) as [[st | msg] |] eqn:Hrun;
    try discriminate.
  intros [= <-] Hnd0.
  destruct (resolve_extends _ _ _ _ Hrun)
    as (added & (Hsrcs & _ & Hnd & _ & Hnew & _) & _).
  simpl in Hsrcs.
  rewrite Hsrcs, map_app. apply NoDup_app.
  split; [exact Hnd0 |]. split; [| exact Hnd].
  intros q Hq Hq'. apply Hnew in Hq'. apply initial_seen in Hq. congruence.
Qed.

Lemma resolution_keeps_identifiers_distinct_witness :
  exists out,
    loadDependencies (E := Demo.golo) 5 "/proj" [Demo.app] = Some (Done out) /\
    NoDup (map ImportPath out).
Proof.
  destruct (loadDependencies (E := Demo.golo) 5 "/proj" [Demo.app])
    as [[out | msg] |] eqn:Hrun;
    [| vm_compute in Hrun; discriminate Hrun
     | vm_compute in Hrun; discriminate Hrun].
  exists out. split; [reflexivity |].
  apply (resolution_keeps_identifiers_distinct (E := Demo.golo) 5 "/proj"
           [Demo.app] out Hrun).
  simpl. apply NoDup_singleton.
Defined.
